(** * Undo feature, base command: verification of [basecommand.js]

    The development embeds
    - the history stack of [BaseCommand] ([addBatch], [clearStack],
      [_checkEnabled], the constructor),
    - [transformDelta], the delta-set transformation,
    - [transformRangesByDeltas] and [transformSelectionRange],
    - [_restoreSelection],
    and proves the properties the specification states about them.

    JavaScript arrays are lists indexed by [Z]; the engine's classes
    ([Position], [Range] transformation, [transform]) are not part of the
    package and are parameters of the sections below. *)

From Stdlib Require Import ZArith List Lia.
From stdpp Require Import base option list gmap strings.
From Equations Require Import Equations.

(** A value together with the equation that it is the value of the
    expression matched on; used where the termination of a loop depends
    on what its body returned. *)
Definition inspect {A : Type} (x : A) : {y : A | x = y} := exist _ x eq_refl.

(** ** JavaScript arrays *)

Module JsArray.

Section Array.
Context {A : Type}.

(** [l[i]]: [None] stands for [undefined], the value at an index that is
    negative or not below [l.length]. *)
Definition get (l : list A) (i : Z) : option A :=
  if decide (0 ≤ i)%Z then l !! Z.to_nat i else None.

(** [l.splice(start, deleteCount, ...items)], the array after the call
    (ECMAScript: a negative [start] counts from the end, both numbers
    are clamped to the array). *)
Definition splice (start deleteCount : Z) (items l : list A) : list A :=
  let len := Z.of_nat (length l) in
  let actualStart :=
    if decide (start < 0)%Z then Z.max (len + start) 0 else Z.min start len in
  let actualDeleteCount := Z.min (Z.max deleteCount 0) (len - actualStart) in
  take (Z.to_nat actualStart) l ++ items
    ++ drop (Z.to_nat (actualStart + actualDeleteCount)) l.

(** The array after the object held at index [i] has been changed into
    [x], a write through a reference to the element; nothing changes
    when no element is there. *)
Definition set (i : Z) (x : A) (l : list A) : list A :=
  if decide (0 ≤ i)%Z then <[Z.to_nat i := x]> l else l.

(** One insertion step of [insertionSort]: the sorted prefix is kept reversed
    (nearest element first); elements [tmp] with [comparefn tmp x > 0]
    are shifted right, [x] lands in front of the first other one. *)
Fixpoint sort_insert (comparefn : A → A → Z) (x : A) (rprefix : list A)
  : list A :=
  match rprefix with
  | [] => [x]
  | tmp :: rest =>
      if decide (0 < comparefn tmp x)%Z
      then tmp :: sort_insert comparefn x rest
      else x :: tmp :: rest
  end.

(** Insertion sort driven by [comparefn], as V8 ran it on arrays of up
    to ten elements before its version 7.0: one of the algorithms an
    engine may run for [l.sort(comparefn)].  The development does not
    rest on it; it serves to run examples. *)
Definition insertionSort (comparefn : A → A → Z) (l : list A) : list A :=
  reverse (fold_left (λ rprefix x, sort_insert comparefn x rprefix) l []).

(** [l.find(p)]. *)
Definition find (p : A → bool) (l : list A) : option A := List.find p l.

Lemma get_Some l i x :
  get l i = Some x →
  (0 ≤ i < Z.of_nat (length l))%Z ∧ l !! Z.to_nat i = Some x.
Proof.
  unfold get. case_decide; [|done]. intros Hx. split; [|done].
  apply lookup_lt_Some in Hx. lia.
Qed.

Lemma get_middle l1 x l2 :
  get (l1 ++ x :: l2) (Z.of_nat (length l1)) = Some x.
Proof.
  unfold get. rewrite decide_True by lia.
  by rewrite Nat2Z.id, list_lookup_middle.
Qed.

Lemma length_set i x l : length (set i x l) = length l.
Proof. unfold set. case_decide; [apply length_insert|done]. Qed.

Lemma set_middle l1 x y l2 :
  set (Z.of_nat (length l1)) y (l1 ++ x :: l2) = l1 ++ y :: l2.
Proof.
  unfold set. rewrite decide_True by lia. rewrite Nat2Z.id.
  rewrite <- (Nat.add_0_r (length l1)). by rewrite insert_app_r.
Qed.

(** Inside the array, [splice(i, 1, ...items)] replaces the element at
    [i] by [items]. *)
Lemma splice1_in_range i items l :
  (0 ≤ i < Z.of_nat (length l))%Z →
  splice i 1 items l = take (Z.to_nat i) l ++ items ++ drop (S (Z.to_nat i)) l.
Proof.
  intros Hi. unfold splice. rewrite decide_False by lia.
  rewrite Z.min_l by lia. rewrite Z.min_l by lia.
  replace (Z.to_nat (i + Z.max 1 0)) with (S (Z.to_nat i)) by lia. done.
Qed.

Lemma length_splice1 i items l :
  (0 ≤ i < Z.of_nat (length l))%Z →
  (Z.of_nat (length (splice i 1 items l))
   = Z.of_nat (length l) - 1 + Z.of_nat (length items))%Z.
Proof.
  intros Hi. rewrite splice1_in_range by done.
  rewrite !length_app, length_take, length_drop. lia.
Qed.

(** The same with the elements before [i] made explicit. *)
Lemma splice1_app l1 x l2 items :
  splice (Z.of_nat (length l1)) 1 items (l1 ++ x :: l2) = l1 ++ items ++ l2.
Proof.
  rewrite splice1_in_range by (rewrite length_app; simpl; lia).
  rewrite Nat2Z.id, take_app_length.
  replace (S (length l1)) with (length l1 + 1) by lia.
  rewrite drop_app_add. done.
Qed.

Lemma sort_insert_perm comparefn x rprefix :
  sort_insert comparefn x rprefix ≡ₚ x :: rprefix.
Proof.
  induction rprefix as [|tmp rest IH]; simpl; [done|].
  case_decide; [|done]. rewrite IH. apply Permutation_swap.
Qed.

(** [insertionSort] rearranges the array. *)
Lemma insertionSort_perm comparefn l : insertionSort comparefn l ≡ₚ l.
Proof.
  unfold insertionSort. rewrite reverse_Permutation.
  assert (∀ acc, fold_left (λ rprefix x, sort_insert comparefn x rprefix) l acc
                 ≡ₚ l ++ acc) as Hfold.
  { induction l as [|x l IH]; intros acc; simpl; [done|].
    rewrite IH, sort_insert_perm. by rewrite Permutation_middle. }
  rewrite Hfold. by rewrite app_nil_r.
Qed.

End Array.

End JsArray.

(** ** The engine's data, as the command reads it *)

Section Undo.
Context {Position Root Batch : Type}.
Context `{EqDecision Root} `{Countable Batch}.

(** [engine.model.Range]: [start] and [end] (here [end_]). *)
Record Range := mkRange { start : Position; end_ : Position }.

(** [engine.model.operation.*]: the properties [transformRangesByDeltas]
    reads.  [position] and [nodes.maxOffset] belong to insert operations,
    [sourcePosition], [targetPosition] and [howMany] to move, remove and
    reinsert operations; a property is read only under the matching
    [type]. *)
Record Operation := mkOperation {
  type : string;
  position : Position;
  nodes_maxOffset : Z;
  sourcePosition : Position;
  targetPosition : Position;
  howMany : Z }.

(** [engine.model.Delta]. *)
Record Delta := mkDelta { baseVersion : Z; operations : list Operation }.

(** *** [transformDelta] *)

(** [transform( a, b, isStrong )] of [engine/model/delta/transform.js],
    a function from two deltas to an array of deltas. *)
Variable transform : Delta → Delta → bool → list Delta.

Section TransformDelta.
Variable setToTransformBy : list Delta.
Variable isStrong : bool.

(** Body of [for ( let transformBy of setToTransformBy )], on the
    variables [to] and [t] it updates.  [to[ t ]] is [undefined] for
    [t] outside the array; [transform] takes deltas and has no result
    on [undefined]: the call raises and ends the run ([None]). *)
Definition transformBy_body (st : list Delta * Z) (transformBy : Delta)
  : option (list Delta * Z) :=
  a ← JsArray.get st.1 st.2;
  let transformed := transform a transformBy isStrong in
  Some (JsArray.splice st.2 1 transformed st.1,
        (st.2 - 1 + Z.of_nat (length transformed))%Z).

Fixpoint for_transformBy (l : list Delta) (st : list Delta * Z)
  : option (list Delta * Z) :=
  match l with
  | [] => Some st
  | transformBy :: l' => transformBy_body st transformBy ≫= for_transformBy l'
  end.

Lemma transformBy_body_measure st b st' :
  transformBy_body st b = Some st' →
  (Z.of_nat (length st'.1) - st'.2 = Z.of_nat (length st.1) - st.2)%Z.
Proof.
  unfold transformBy_body. destruct (JsArray.get st.1 st.2) as [a|] eqn:Ha; [|done].
  simpl. intros [= <-]. simpl. apply JsArray.get_Some in Ha as [Hr _].
  rewrite JsArray.length_splice1 by done. lia.
Qed.

Lemma for_transformBy_measure l st st' :
  for_transformBy l st = Some st' →
  (Z.of_nat (length st'.1) - st'.2 = Z.of_nat (length st.1) - st.2)%Z.
Proof.
  revert st. induction l as [|b l IH]; intros st; simpl.
  - by intros [= <-].
  - destruct (transformBy_body st b) as [st1|] eqn:Hb; [|done]. simpl.
    intros Hl%IH. apply transformBy_body_measure in Hb. lia.
Qed.

(** [for ( let t = 0; t < to.length; t++ )], entered with the given
    [to] and [t]; the result is the final [to]. *)
Equations? for_t (to : list Delta) (t : Z) : option (list Delta)
  by wf (Z.to_nat (Z.of_nat (length to) - t)) lt :=
  for_t to t with decide (t < Z.of_nat (length to))%Z := {
    | right _ := Some to
    | left _ with inspect (for_transformBy setToTransformBy (to, t)) := {
        | exist _ None _ := None
        | exist _ (Some st') _ := for_t st'.1 (st'.2 + 1)%Z } }.
Proof.
  apply for_transformBy_measure in e. simpl in e. lia.
Qed.

End TransformDelta.

(** [for ( let toTransform of setToTransform )] with the accumulator
    [results]. *)
Fixpoint for_toTransform (setToTransformBy : list Delta) (isStrong : bool)
    (results : list Delta) (l : list Delta) : option (list Delta) :=
  match l with
  | [] => Some results
  | toTransform :: l' =>
      to ← for_t setToTransformBy isStrong [toTransform] 0;
      for_toTransform setToTransformBy isStrong (results ++ to) l'
  end.

Definition transformDelta (setToTransform setToTransformBy : list Delta)
    (isStrong : bool) : option (list Delta) :=
  for_toTransform setToTransformBy isStrong [] setToTransform.

(** The reading of the specification: every delta the working list
    holds is transformed by the next delta of [setToTransformBy] and
    replaced in place by the results, for each delta of
    [setToTransformBy] in turn; nothing is skipped. *)
Definition transformDelta_spec (setToTransform setToTransformBy : list Delta)
    (isStrong : bool) : list Delta :=
  flat_map
    (λ toTransform,
       fold_left
         (λ to transformBy, flat_map (λ a, transform a transformBy isStrong) to)
         setToTransformBy [toTransform])
    setToTransform.

(** *** [transformRangesByDeltas] *)

(** [Range#_getTransformedByInsertion] and [Range#_getTransformedByMove]
    of the engine; both return an array of ranges. *)
Variable _getTransformedByInsertion : Range → Position → Z → bool → list Range.
Variable _getTransformedByMove :
  Range → Position → Position → Z → bool → list Range.

(** The [switch ( operation.type )] of the loop body.  The outer option
    is [None] when a method is called on [ranges[ i ] = undefined]
    (a TypeError); the inner one is the variable [result], [None] for
    [undefined]. *)
Definition switch_type (operation : Operation) (ranges : list Range) (i : Z)
  : option (option (list Range)) :=
  if decide (type operation = "insert") then
    r ← JsArray.get ranges i;
    Some (Some (_getTransformedByInsertion r
                  (position operation) (nodes_maxOffset operation) true))
  else if decide (type operation = "move" ∨ type operation = "remove"
                  ∨ type operation = "reinsert") then
    r ← JsArray.get ranges i;
    Some (Some (_getTransformedByMove r
                  (sourcePosition operation) (targetPosition operation)
                  (howMany operation) true))
  else Some None.

Lemma switch_type_result operation ranges i result :
  switch_type operation ranges i = Some (Some result) →
  (0 ≤ i < Z.of_nat (length ranges))%Z.
Proof.
  unfold switch_type. intros Hs.
  destruct (JsArray.get ranges i) as [r|] eqn:Hr.
  - by apply JsArray.get_Some in Hr as [? _].
  - repeat case_decide; simplify_eq/=.
Qed.

(** [for ( let i = 0; i < ranges.length; i++ )] for one operation,
    entered with the given [ranges] and [i]. *)
Equations? for_i (operation : Operation) (ranges : list Range) (i : Z)
  : option (list Range)
  by wf (Z.to_nat (Z.of_nat (length ranges) - i)) lt :=
  for_i operation ranges i with decide (i < Z.of_nat (length ranges))%Z := {
    | right _ := Some ranges
    | left _ with inspect (switch_type operation ranges i) := {
        | exist _ None _ := None
        | exist _ (Some None) _ := for_i operation ranges (i + 1)%Z
        | exist _ (Some (Some result)) _ :=
            for_i operation (JsArray.splice i 1 result ranges)
              (i + Z.of_nat (length result) - 1 + 1)%Z } }.
Proof.
  all: try lia.
  apply switch_type_result in e.
  rewrite JsArray.length_splice1 by done. lia.
Qed.

(** [for ( let operation of delta.operations )]. *)
Fixpoint for_operation (l : list Operation) (ranges : list Range)
  : option (list Range) :=
  match l with
  | [] => Some ranges
  | operation :: l' => for_i operation ranges 0 ≫= for_operation l'
  end.

(** [for ( let delta of deltas )]. *)
Fixpoint for_delta (l : list Delta) (ranges : list Range)
  : option (list Range) :=
  match l with
  | [] => Some ranges
  | delta :: l' => for_operation (operations delta) ranges ≫= for_delta l'
  end.

Definition transformRangesByDeltas (ranges : list Range) (deltas : list Delta)
  : option (list Range) :=
  for_delta deltas ranges.

(** What one operation makes of one range: the ranges the engine
    returns, or the range itself when the operation is of another
    type. *)
Definition transformedBy (operation : Operation) (r : Range) : list Range :=
  if decide (type operation = "insert") then
    _getTransformedByInsertion r
      (position operation) (nodes_maxOffset operation) true
  else if decide (type operation = "move" ∨ type operation = "remove"
                  ∨ type operation = "reinsert") then
    _getTransformedByMove r
      (sourcePosition operation) (targetPosition operation)
      (howMany operation) true
  else [r].

(** The reading of the specification: the operations of all deltas, in
    their order, each applied once to every range the working set
    holds when its turn comes. *)
Definition transformRangesByDeltas_spec (ranges : list Range)
    (deltas : list Delta) : list Range :=
  fold_left (λ rs operation, flat_map (transformedBy operation) rs)
    (flat_map operations deltas) ranges.

(** *** [transformSelectionRange] *)

(** [Position#isBefore] and [Position#isTouching] of the engine. *)
Variable isBefore : Position → Position → bool.
Variable isTouching : Position → Position → bool.

(** [Array.prototype.sort] of the JavaScript engine, given the comparator
    and the array.  The comparator below never returns 0 and answers 1
    both ways for two starts neither of which is before the other (equal
    starts, starts in different roots); for such a comparator ECMAScript
    leaves the order of the result to the implementation, so the sort is
    left open here. *)
Variable sort : (Range → Range → Z) → list Range → list Range.

(** [( a, b ) => a.start.isBefore( b.start ) ? -1 : 1] *)
Definition comparefn (a b : Range) : Z :=
  if isBefore (start a) (start b) then (-1)%Z else 1%Z.

(** The values of [a] and [b] in the merging loop; [None] when one of
    them is [undefined], whose [end] or [start] cannot be read. *)
Definition merge_operands (transformed : list Range) (i : Z)
  : option (Range * Range) :=
  a ← JsArray.get transformed (i - 1);
  b ← JsArray.get transformed i;
  Some (a, b).

Lemma merge_operands_Some transformed i ab :
  merge_operands transformed i = Some ab →
  (1 ≤ i < Z.of_nat (length transformed))%Z.
Proof.
  unfold merge_operands. intros Hm.
  destruct (JsArray.get transformed (i - 1)) as [a|] eqn:Ha; [|done].
  destruct (JsArray.get transformed i) as [b|] eqn:Hb; [|done].
  apply JsArray.get_Some in Ha as [? _]. apply JsArray.get_Some in Hb as [? _].
  lia.
Qed.

(** [for ( let i = 1 ; i < transformed.length; i++ )], entered with the
    given [transformed] and [i].  [a.end = b.end] writes to the object
    held at index [i - 1]. *)
Equations? for_merge (transformed : list Range) (i : Z) : option (list Range)
  by wf (Z.to_nat (Z.of_nat (length transformed) - i)) lt :=
  for_merge transformed i
    with decide (i < Z.of_nat (length transformed))%Z := {
    | right _ := Some transformed
    | left _ with inspect (merge_operands transformed i) := {
        | exist _ None _ := None
        | exist _ (Some (a, b)) _ with isTouching (end_ a) (start b) := {
            | true :=
                for_merge
                  (JsArray.splice i 1 []
                     (JsArray.set (i - 1) (mkRange (start a) (end_ b))
                        transformed))
                  (i - 1 + 1)%Z
            | false := for_merge transformed (i + 1)%Z } } }.
Proof.
  all: try lia.
  apply merge_operands_Some in e.
  rewrite JsArray.length_splice1; rewrite JsArray.length_set; simpl; lia.
Qed.

Definition transformSelectionRange (range : Range) (deltas : list Delta)
  : option (list Range) :=
  transformed ← transformRangesByDeltas [range] deltas;
  for_merge (sort comparefn transformed) 1.

(** *** The command and the document it works on *)

(** [Position#root]. *)
Variable root : Position → Root.

(** The state of a selection: what [getRanges()] and [isBackward] give
    for the document selection, and the object [{ ranges, isBackward }]
    [addBatch] stores. *)
Record Selection := mkSelection { ranges : list Range; isBackward : bool }.

(** [editor.document]: its selection and its graveyard root. *)
Record Document := mkDocument {
  document_selection : Selection;
  graveyard : Root }.

Record Editor := mkEditor { document : Document }.

(** An item of the stack, [{ batch, selection }]. *)
Record StackItem := mkStackItem { batch : Batch; selection : Selection }.

(** The fields of a [BaseCommand]; [_createdBatches] is a [WeakSet],
    a set of batches compared by identity. *)
Record BaseCommand := mkBaseCommand {
  editor : Editor;
  isEnabled : bool;
  _stack : list StackItem;
  _createdBatches : gset Batch }.

Definition _checkEnabled (this : BaseCommand) : bool :=
  bool_decide (0 < length (_stack this)).

(** Modelled from the spec: [Command#refreshState] of the core package
    is missing from the sources.  The specification has enablement
    recomputed from the sole predicate [isEnabled()], which the command
    implements as [_checkEnabled]. *)
Definition refreshState (this : BaseCommand) : BaseCommand :=
  {| editor := editor this;
     isEnabled := _checkEnabled this;
     _stack := _stack this;
     _createdBatches := _createdBatches this |}.

(** [constructor( editor )].  [super( editor )] stores the editor; the
    value it leaves in [isEnabled] is [enabled0]. *)
Definition constructor (editor0 : Editor) (enabled0 : bool) : BaseCommand :=
  refreshState
    {| editor := editor0;
       isEnabled := enabled0;
       _stack := [];
       _createdBatches := ∅ |}.

Definition addBatch (batch0 : Batch) (this : BaseCommand) : BaseCommand :=
  let selection0 :=
    {| ranges := ranges (document_selection (document (editor this)));
       isBackward := isBackward (document_selection (document (editor this))) |} in
  refreshState
    {| editor := editor this;
       isEnabled := isEnabled this;
       _stack := _stack this ++ [ {| batch := batch0; selection := selection0 |} ];
       _createdBatches := _createdBatches this |}.

Definition clearStack (this : BaseCommand) : BaseCommand :=
  refreshState
    {| editor := editor this;
       isEnabled := isEnabled this;
       _stack := [];
       _createdBatches := _createdBatches this |}.

(** Modelled from the spec: the pop of the undo and redo commands is
    missing from the sources.  The specification has the orchestrator
    remove the top-of-stack entry and return it (step 1) and re-evaluate
    enablement (step 7); a pop on an empty stack is a violated
    precondition and has no result. *)
Definition orchestrator_pop (this : BaseCommand)
  : option (StackItem * BaseCommand) :=
  item ← last (_stack this);
  Some (item,
        refreshState
          {| editor := editor this;
             isEnabled := isEnabled this;
             _stack := removelast (_stack this);
             _createdBatches := _createdBatches this |}).

(** *** [_restoreSelection] *)

(** [( range ) => range.start.root != document.graveyard] *)
Definition notInGraveyard (doc : Document) (range : Range) : bool :=
  bool_decide (root (start range) ≠ graveyard doc).

(** [for ( let range of ranges )] with the accumulator
    [selectionRanges]. *)
Fixpoint for_range (doc : Document) (deltas : list Delta)
    (selectionRanges : list Range) (l : list Range) : option (list Range) :=
  match l with
  | [] => Some selectionRanges
  | range :: l' =>
      transformedRanges ← transformSelectionRange range deltas;
      match JsArray.find (notInGraveyard doc) transformedRanges with
      | Some transformedRange =>
          for_range doc deltas (selectionRanges ++ [transformedRange]) l'
      | None => for_range doc deltas selectionRanges l'
      end
  end.

(** The calls [_restoreSelection] makes on [document.selection]. *)
Inductive SelectionCall :=
| setRanges (newRanges : list Range) (isLastBackward : bool).

(** Modelled from the spec: [Selection#setRanges] of the engine is
    missing from the sources.  The specification has it install the
    ranges with the recorded [isBackward] flag as the new selection. *)
Definition perform (doc : Document) (call : SelectionCall) : Document :=
  match call with
  | setRanges newRanges isLastBackward =>
      {| document_selection :=
           {| ranges := newRanges; isBackward := isLastBackward |};
         graveyard := graveyard doc |}
  end.

(** [_restoreSelection( ranges, isBackward, deltas )]: the command
    afterwards and the calls made on the document selection, in
    order. *)
Definition _restoreSelection (ranges0 : list Range) (isBackward0 : bool)
    (deltas : list Delta) (this : BaseCommand)
  : option (BaseCommand * list SelectionCall) :=
  let document0 := document (editor this) in
  selectionRanges ← for_range document0 deltas [] ranges0;
  let calls :=
    if decide (length selectionRanges ≠ 0)
    then [setRanges selectionRanges isBackward0] else [] in
  Some ({| editor := {| document := fold_left perform calls document0 |};
           isEnabled := isEnabled this;
           _stack := _stack this;
           _createdBatches := _createdBatches this |},
        calls).

Lemma for_t_eq setToTransformBy isStrong to t :
  for_t setToTransformBy isStrong to t =
  if decide (t < Z.of_nat (length to))%Z then
    match for_transformBy isStrong setToTransformBy (to, t) with
    | Some st' => for_t setToTransformBy isStrong st'.1 (st'.2 + 1)%Z
    | None => None
    end
  else Some to.
Proof.
  rewrite for_t_equation_1. unfold for_t_unfold_clause_1.
  case_decide; [|done].
  generalize (inspect (for_transformBy isStrong setToTransformBy (to, t))).
  intros [[st'|] e]; simpl; by rewrite e.
Qed.

Lemma for_i_eq operation ranges0 i :
  for_i operation ranges0 i =
  if decide (i < Z.of_nat (length ranges0))%Z then
    match switch_type operation ranges0 i with
    | None => None
    | Some None => for_i operation ranges0 (i + 1)%Z
    | Some (Some result) =>
        for_i operation (JsArray.splice i 1 result ranges0)
          (i + Z.of_nat (length result) - 1 + 1)%Z
    end
  else Some ranges0.
Proof.
  rewrite for_i_equation_1. unfold for_i_unfold_clause_1.
  case_decide; [|done].
  generalize (inspect (switch_type operation ranges0 i)).
  intros [[[result|]|] e]; simpl; by rewrite e.
Qed.

Lemma for_merge_eq transformed i :
  for_merge transformed i =
  if decide (i < Z.of_nat (length transformed))%Z then
    match merge_operands transformed i with
    | None => None
    | Some (a, b) =>
        if isTouching (end_ a) (start b) then
          for_merge
            (JsArray.splice i 1 []
               (JsArray.set (i - 1) (mkRange (start a) (end_ b)) transformed))
            (i - 1 + 1)%Z
        else for_merge transformed (i + 1)%Z
    end
  else Some transformed.
Proof.
  rewrite for_merge_equation_1. unfold for_merge_unfold_clause_1.
  case_decide; [|done].
  generalize (inspect (merge_operands transformed i)).
  intros [[[a b]|] e]; simpl; [|by rewrite e].
  destruct (isTouching (end_ a) (start b)) eqn:Ht; simpl; by rewrite e, Ht.
Qed.

(** ** Properties of [transformDelta] *)

(** What the loops compute for one delta: each delta of
    [setToTransformBy] transforms the last delta of the working list
    only, and the results take its place. *)
Fixpoint transformLast (isStrong : bool) (l : list Delta) (to : list Delta)
  : option (list Delta) :=
  match l with
  | [] => Some to
  | transformBy :: l' =>
      a ← last to;
      transformLast isStrong l' (removelast to ++ transform a transformBy isStrong)
  end.

Lemma get_last {A} (l : list A) :
  JsArray.get l (Z.of_nat (length l) - 1) = last l.
Proof.
  destruct l as [|x l] using rev_ind; [done|].
  rewrite last_snoc. unfold JsArray.get. rewrite length_app. simpl.
  rewrite decide_True by lia.
  replace (Z.to_nat _) with (length l) by lia.
  by rewrite list_lookup_middle.
Qed.

Lemma splice_last {A} (l items : list A) :
  l ≠ [] →
  JsArray.splice (Z.of_nat (length l) - 1) 1 items l = removelast l ++ items.
Proof.
  destruct l as [|x l _] using rev_ind; [done|]. intros _.
  rewrite removelast_last.
  replace (Z.of_nat (length (l ++ [x])) - 1)%Z with (Z.of_nat (length l))
    by (rewrite length_app; simpl; lia).
  rewrite JsArray.splice1_app. by rewrite app_nil_r.
Qed.

Lemma for_transformBy_last isStrong l to :
  for_transformBy isStrong l (to, (Z.of_nat (length to) - 1)%Z)
  = (λ to', (to', (Z.of_nat (length to') - 1)%Z)) <$> transformLast isStrong l to.
Proof.
  revert to. induction l as [|b l IH]; intros to; simpl; [done|].
  unfold transformBy_body. simpl. rewrite get_last.
  destruct (last to) as [a|] eqn:Ha; simpl; [|done].
  assert (to ≠ []) as Hne by (by intros ->).
  rewrite splice_last by done.
  rewrite <- IH. f_equal. f_equal.
  rewrite length_app.
  assert (length (removelast to) = length to - 1) as ->.
  { destruct to as [|x to _] using rev_ind; [done|].
    rewrite removelast_last, length_app. simpl. lia. }
  destruct to; [done|]. simpl. lia.
Qed.

(** The loop over [t] makes one pass: after the inner loop [t] is the
    last index, and [t++] leaves the array. *)
Lemma for_t_single isStrong setToTransformBy toTransform :
  for_t setToTransformBy isStrong [toTransform] 0
  = transformLast isStrong setToTransformBy [toTransform].
Proof.
  rewrite for_t_eq. simpl.
  change 0%Z with (Z.of_nat (length [toTransform]) - 1)%Z at 1.
  rewrite for_transformBy_last.
  destruct (transformLast isStrong setToTransformBy [toTransform]) as [to'|];
    simpl; [|done].
  rewrite for_t_eq. by rewrite decide_False by lia.
Qed.

Lemma for_toTransform_nil isStrong results l :
  for_toTransform [] isStrong results l = Some (results ++ l).
Proof.
  revert results. induction l as [|d l IH]; intros results; simpl.
  - by rewrite app_nil_r.
  - rewrite for_t_single. simpl. rewrite IH. by rewrite <- app_assoc.
Qed.

(** C4.  Transforming by the empty set is the identity: for every delta
    set [D] and every [isStrong], [transformDelta( D, [], isStrong )]
    returns (without raising) exactly [D]. *)
Theorem transformDelta_identity (D : list Delta) (isStrong : bool) :
  transformDelta D [] isStrong = Some D.
Proof. unfold transformDelta. by rewrite for_toTransform_nil. Qed.

(** Two deltas, the first of which splits: the part that is not last
    is returned as the first step left it. *)
Lemma transformDelta_split toTransform b1 b2 isStrong x1 x2 :
  transform toTransform b1 isStrong = [x1; x2] →
  transformDelta [toTransform] [b1; b2] isStrong
  = Some (x1 :: transform x2 b2 isStrong).
Proof.
  intros Hsplit. unfold transformDelta. simpl.
  rewrite for_t_single. simpl. rewrite Hsplit. done.
Qed.

(** ** Properties of [transformRangesByDeltas] *)

Lemma switch_type_transformedBy operation l1 r l2 :
  switch_type operation (l1 ++ r :: l2) (Z.of_nat (length l1))
  = Some (if decide (type operation = "insert" ∨ type operation = "move"
                     ∨ type operation = "remove" ∨ type operation = "reinsert")
          then Some (transformedBy operation r) else None).
Proof.
  unfold switch_type, transformedBy. rewrite JsArray.get_middle.
  repeat case_decide; simpl; try done; tauto.
Qed.

Lemma transformedBy_other operation r :
  ¬ (type operation = "insert" ∨ type operation = "move"
     ∨ type operation = "remove" ∨ type operation = "reinsert") →
  transformedBy operation r = [r].
Proof. intros Hn. unfold transformedBy. rewrite !decide_False; tauto. Qed.

(** The scan of one operation from index [length l1] on: the ranges
    before the index stay, each range from the index on is replaced by
    what the operation makes of it. *)
Lemma for_i_from operation l1 l2 :
  for_i operation (l1 ++ l2) (Z.of_nat (length l1))
  = Some (l1 ++ flat_map (transformedBy operation) l2).
Proof.
  revert l1. induction l2 as [|r l2 IH]; intros l1.
  - rewrite for_i_eq. rewrite decide_False by (rewrite length_app; simpl; lia).
    done.
  - rewrite for_i_eq.
    rewrite decide_True by (rewrite length_app; simpl; lia).
    rewrite switch_type_transformedBy. case_decide as Hc.
    + rewrite JsArray.splice1_app. simpl.
      replace (Z.of_nat (length l1)
               + Z.of_nat (length (transformedBy operation r)) - 1 + 1)%Z
        with (Z.of_nat (length (l1 ++ transformedBy operation r)))
        by (rewrite length_app; lia).
      rewrite app_assoc, IH. by rewrite <- !app_assoc.
    + simpl. rewrite transformedBy_other by done.
      replace (Z.of_nat (length l1) + 1)%Z
        with (Z.of_nat (length (l1 ++ [r]))) by (rewrite length_app; simpl; lia).
      rewrite (cons_middle r l1 l2), app_assoc, IH.
      by rewrite <- app_assoc.
Qed.

Lemma for_i_flat_map operation ranges0 :
  for_i operation ranges0 0 = Some (flat_map (transformedBy operation) ranges0).
Proof. apply (for_i_from operation [] ranges0). Qed.

Lemma for_operation_fold l ranges0 :
  for_operation l ranges0
  = Some (fold_left (λ rs operation, flat_map (transformedBy operation) rs)
            l ranges0).
Proof.
  revert ranges0. induction l as [|operation l IH]; intros ranges0; simpl; [done|].
  rewrite for_i_flat_map. simpl. apply IH.
Qed.

Lemma for_delta_fold l ranges0 :
  for_delta l ranges0 = Some (transformRangesByDeltas_spec ranges0 l).
Proof.
  unfold transformRangesByDeltas_spec.
  revert ranges0. induction l as [|delta l IH]; intros ranges0; simpl; [done|].
  rewrite for_operation_fold. simpl. rewrite IH. by rewrite fold_left_app.
Qed.

(** C6.  [transformRangesByDeltas] returns (it never raises) what the
    operations of all deltas, deltas in their order and operations in
    their recorded order, make of the working set when each operation
    is applied exactly once to every range the set holds at its turn:
    the ranges an operation produces are not transformed again by that
    operation, only by the operations after it. *)
Theorem transformRangesByDeltas_each_operation_once
    (ranges0 : list Range) (deltas : list Delta) :
  transformRangesByDeltas ranges0 deltas
  = Some (transformRangesByDeltas_spec ranges0 deltas).
Proof. apply for_delta_fold. Qed.

Lemma flat_map_singleton {A} (f : A → list A) (l : list A) :
  (∀ x, f x = [x]) → flat_map f l = l.
Proof. intros Hf. induction l as [|x l IH]; simpl; [done|]. by rewrite Hf, IH. Qed.

(** C9.  An operation whose type is none of 'insert', 'move', 'remove'
    and 'reinsert' leaves the working set as it is: the switch yields
    no result at any index, the scan of that operation returns the
    ranges unchanged without raising, and dropping the operation from
    a delta does not change what [transformRangesByDeltas] returns. *)
Theorem other_operation_leaves_ranges (operation : Operation) :
  type operation ≠ "insert" → type operation ≠ "move" →
  type operation ≠ "remove" → type operation ≠ "reinsert" →
  (∀ ranges0 i, switch_type operation ranges0 i = Some None)
  ∧ (∀ ranges0, for_i operation ranges0 0 = Some ranges0)
  ∧ (∀ ranges0 deltas1 deltas2 version operations1 operations2,
       transformRangesByDeltas ranges0
         (deltas1 ++ mkDelta version (operations1 ++ operation :: operations2)
            :: deltas2)
       = transformRangesByDeltas ranges0
           (deltas1 ++ mkDelta version (operations1 ++ operations2) :: deltas2)).
Proof.
  intros Hi Hm Hr Hre.
  assert (∀ r, transformedBy operation r = [r]) as Hid.
  { intros r. apply transformedBy_other. tauto. }
  split; [|split].
  - intros ranges0 i. unfold switch_type. rewrite !decide_False; tauto.
  - intros ranges0. rewrite for_i_flat_map. by rewrite flat_map_singleton.
  - intros ranges0 deltas1 deltas2 version operations1 operations2.
    unfold transformRangesByDeltas. rewrite !for_delta_fold. f_equal.
    unfold transformRangesByDeltas_spec.
    rewrite !flat_map_app. simpl.
    rewrite !fold_left_app. simpl. by rewrite flat_map_singleton.
Qed.

(** ** Properties of [transformSelectionRange] *)

(** What the merging loop computes from the range [a] at index [i - 1]
    and the ranges after it. *)
Fixpoint mergeTouching (a : Range) (rest : list Range) : list Range :=
  match rest with
  | [] => [a]
  | b :: rest' =>
      if isTouching (end_ a) (start b)
      then mergeTouching (mkRange (start a) (end_ b)) rest'
      else a :: mergeTouching b rest'
  end.

Lemma merge_operands_middle l1 a b l2 :
  merge_operands (l1 ++ a :: b :: l2) (Z.of_nat (length l1) + 1) = Some (a, b).
Proof.
  unfold merge_operands.
  replace (Z.of_nat (length l1) + 1 - 1)%Z with (Z.of_nat (length l1)) by lia.
  rewrite JsArray.get_middle. simpl.
  replace (Z.of_nat (length l1) + 1)%Z with (Z.of_nat (length (l1 ++ [a])))
    by (rewrite length_app; simpl; lia).
  rewrite (cons_middle a l1), app_assoc, JsArray.get_middle. done.
Qed.

Lemma for_merge_from l1 a rest :
  for_merge (l1 ++ a :: rest) (Z.of_nat (length l1) + 1)
  = Some (l1 ++ mergeTouching a rest).
Proof.
  revert l1 a. induction rest as [|b rest IH]; intros l1 a.
  - rewrite for_merge_eq.
    rewrite decide_False by (rewrite length_app; simpl; lia). done.
  - rewrite for_merge_eq.
    rewrite decide_True by (rewrite length_app; simpl; lia).
    rewrite merge_operands_middle. simpl.
    destruct (isTouching (end_ a) (start b)).
    + replace (Z.of_nat (length l1) + 1 - 1)%Z with (Z.of_nat (length l1)) by lia.
      rewrite JsArray.set_middle.
      set (a' := {| start := start a; end_ := end_ b |}).
      rewrite (cons_middle a' l1 (b :: rest)), app_assoc.
      replace (Z.of_nat (length l1) + 1)%Z
        with (Z.of_nat (length (l1 ++ [a']))) at 1
        by (rewrite length_app; simpl; lia).
      rewrite JsArray.splice1_app.
      simpl. rewrite <- app_assoc. simpl. apply IH.
    + replace (Z.of_nat (length l1) + 1 + 1)%Z
        with (Z.of_nat (length (l1 ++ [a])) + 1)%Z
        by (rewrite length_app; simpl; lia).
      rewrite (cons_middle a l1), app_assoc, IH. by rewrite <- app_assoc.
Qed.

Lemma for_merge_1 transformed :
  for_merge transformed 1
  = Some match transformed with
         | [] => []
         | a :: rest => mergeTouching a rest
         end.
Proof.
  destruct transformed as [|a rest].
  - rewrite for_merge_eq. by rewrite decide_False by (simpl; lia).
  - apply (for_merge_from [] a rest).
Qed.

(** Neighbours in the array do not touch. *)
Definition noTouchingNeighbours (l : list Range) : Prop :=
  ∀ i a b, l !! i = Some a → l !! S i = Some b →
    isTouching (end_ a) (start b) = false.

Lemma mergeTouching_head a rest :
  ∃ e tl, mergeTouching a rest = mkRange (start a) e :: tl.
Proof.
  revert a. induction rest as [|b rest IH]; intros [s e]; simpl; [by eauto|].
  destruct (isTouching e (start b)); [|by eauto].
  destruct (IH (mkRange s (end_ b))) as (e' & tl & ->). by eauto.
Qed.

Lemma mergeTouching_noTouchingNeighbours a rest :
  noTouchingNeighbours (mergeTouching a rest).
Proof.
  revert a. induction rest as [|b rest IH]; intros a; simpl.
  - intros i x y _ Hy. by destruct i.
  - destruct (isTouching (end_ a) (start b)) eqn:Ht; [apply IH|].
    intros [|i] x y Hx Hy; simpl in *; [|by eapply IH].
    destruct (mergeTouching_head b rest) as (e & tl & Hm).
    rewrite Hm in Hy. by simplify_eq/=.
Qed.

(** The starts of the merged ranges are among the starts before the
    merge, in the same order. *)
Lemma mergeTouching_starts a rest :
  ∃ tl, start <$> mergeTouching a rest = start a :: tl
        ∧ sublist tl (start <$> rest).
Proof.
  revert a. induction rest as [|b rest IH]; intros a; cbn [mergeTouching].
  - by exists [].
  - destruct (isTouching (end_ a) (start b)).
    + destruct (IH (mkRange (start a) (end_ b))) as (tl & -> & Hs).
      exists tl. split; [done|]. rewrite fmap_cons. by apply sublist_cons.
    + destruct (IH b) as (tl & Hm & Hs). exists (start b :: tl).
      rewrite !fmap_cons, Hm. split; [done|]. by apply sublist_skip.
Qed.

(** [transformSelectionRange] never raises. *)
Lemma transformSelectionRange_total range deltas :
  is_Some (transformSelectionRange range deltas).
Proof.
  unfold transformSelectionRange, transformRangesByDeltas.
  rewrite for_delta_fold. simpl.
  rewrite for_merge_1. by eexists.
Qed.

(** ** Properties of [_restoreSelection] *)

(** [kept] is what the restoration keeps of the candidates [cands] of
    one original range: the first candidate whose start is outside the
    graveyard, all candidates before it starting in the graveyard; or
    nothing, all candidates starting in the graveyard. *)
Definition keptOf (doc : Document) (cands : list Range) (kept : option Range)
  : Prop :=
  match kept with
  | Some x =>
      ∃ l1 l2, cands = l1 ++ x :: l2
               ∧ Forall (λ c, root (start c) = graveyard doc) l1
               ∧ root (start x) ≠ graveyard doc
  | None => Forall (λ c, root (start c) = graveyard doc) cands
  end.

Lemma find_keptOf doc cands :
  keptOf doc cands (JsArray.find (notInGraveyard doc) cands).
Proof.
  unfold JsArray.find. induction cands as [|c cands IH]; simpl; [done|].
  unfold notInGraveyard at 1. case_bool_decide as Hc.
  - by exists [], cands.
  - destruct (List.find (notInGraveyard doc) cands) as [x|]; simpl in *.
    + destruct IH as (l1 & l2 & -> & Hl1 & Hx).
      exists (c :: l1), l2. by repeat split; [constructor|].
    + by constructor.
Qed.

Lemma keptOf_all_in_graveyard doc cands kept :
  Forall (λ c, root (start c) = graveyard doc) cands →
  keptOf doc cands kept → kept = None.
Proof.
  intros Hall. destruct kept as [x|]; [|done].
  intros (l1 & l2 & -> & _ & Hx). apply Forall_app in Hall as [_ Hall].
  by apply Forall_cons in Hall as [? _].
Qed.

Lemma for_range_kept doc deltas selectionRanges l :
  ∃ kept,
    Forall2 (λ range k, ∃ cands, transformSelectionRange range deltas = Some cands
                                 ∧ keptOf doc cands k) l kept
    ∧ for_range doc deltas selectionRanges l
      = Some (selectionRanges ++ omap id kept).
Proof.
  revert selectionRanges. induction l as [|range l IH]; intros acc; simpl.
  - exists []. split; [constructor|]. by rewrite app_nil_r.
  - destruct (transformSelectionRange_total range deltas) as [cands Hc].
    rewrite Hc. simpl. pose proof (find_keptOf doc cands) as Hk.
    destruct (JsArray.find (notInGraveyard doc) cands) as [x|].
    + destruct (IH (acc ++ [x])) as (kept & Hf & ->).
      exists (Some x :: kept). split; [constructor; eauto|].
      simpl. by rewrite <- app_assoc.
    + destruct (IH acc) as (kept & Hf & ->).
      exists (None :: kept). split; [constructor; eauto|]. done.
Qed.

Lemma omap_keptOf_notInGraveyard doc (l : list Range) deltas kept :
  Forall2 (λ range k, ∃ cands, transformSelectionRange range deltas = Some cands
                               ∧ keptOf doc cands k) l kept →
  Forall (λ r, root (start r) ≠ graveyard doc) (omap id kept).
Proof.
  induction 1 as [|range k l kept (cands & _ & Hk) _ IH]; simpl; [constructor|].
  destruct k as [x|]; simpl; [|done].
  destruct Hk as (_ & _ & _ & _ & Hx). by constructor.
Qed.

Lemma restoreSelection_selectionRanges ranges0 isBackward0 deltas this :
  ∃ kept,
    Forall2 (λ range k,
               ∃ cands, transformSelectionRange range deltas = Some cands
                        ∧ keptOf (document (editor this)) cands k)
      ranges0 kept
    ∧ _restoreSelection ranges0 isBackward0 deltas this
      = Some ({| editor :=
                   {| document :=
                        fold_left perform
                          (if decide (omap id kept = []) then []
                           else [setRanges (omap id kept) isBackward0])
                          (document (editor this)) |};
                 isEnabled := isEnabled this;
                 _stack := _stack this;
                 _createdBatches := _createdBatches this |},
              if decide (omap id kept = []) then []
              else [setRanges (omap id kept) isBackward0]).
Proof.
  unfold _restoreSelection.
  destruct (for_range_kept (document (editor this)) deltas [] ranges0)
    as (kept & Hf & ->).
  simpl. exists kept. split; [done|].
  destruct (omap id kept); simpl; by repeat case_decide.
Qed.

(** C3.  [_restoreSelection] returns without raising, and what it
    installs is determined per original range: of the candidates
    [transformSelectionRange] gives for the range it keeps at most one,
    the first whose start root is not the graveyard, and nothing when
    every candidate starts in the graveyard.  The kept ranges, in the
    order of the original ranges, are the ranges passed to [setRanges];
    none of them starts in the graveyard, so a range lying in the
    graveyard is never installed. *)
Theorem restoreSelection_graveyard_exclusion
    (ranges0 : list Range) (isBackward0 : bool) (deltas : list Delta)
    (this : BaseCommand) :
  ∃ kept this' calls,
    _restoreSelection ranges0 isBackward0 deltas this = Some (this', calls)
    ∧ Forall2 (λ range k,
                 ∃ cands, transformSelectionRange range deltas = Some cands
                          ∧ keptOf (document (editor this)) cands k)
        ranges0 kept
    ∧ Forall (λ r, root (start r) ≠ graveyard (document (editor this)))
        (omap id kept)
    ∧ calls = (if decide (omap id kept = []) then []
               else [setRanges (omap id kept) isBackward0])
    ∧ document (editor this')
      = fold_left perform calls (document (editor this)).
Proof.
  destruct (restoreSelection_selectionRanges ranges0 isBackward0 deltas this)
    as (kept & Hf & Hr).
  exists kept. eexists _, _. split; [exact Hr|].
  split; [done|]. split; [by eapply omap_keptOf_notInGraveyard|]. done.
Qed.

(** C7.  If every candidate of every range of the snapshot starts in
    the graveyard, [_restoreSelection] returns without raising, the
    command and the document, its selection included, are as before
    and no call is made on the selection.  In general, a call is made
    only as the single [setRanges] with a non-empty array of ranges and
    the recorded [isBackward]. *)
Theorem restoreSelection_all_degenerate
    (ranges0 : list Range) (isBackward0 : bool) (deltas : list Delta)
    (this : BaseCommand) :
  (Forall (λ range,
             ∃ cands, transformSelectionRange range deltas = Some cands
                      ∧ Forall (λ c, root (start c)
                                     = graveyard (document (editor this)))
                          cands) ranges0 →
   _restoreSelection ranges0 isBackward0 deltas this = Some (this, []))
  ∧ (∀ this' calls,
       _restoreSelection ranges0 isBackward0 deltas this = Some (this', calls) →
       ∀ newRanges isLastBackward,
         setRanges newRanges isLastBackward ∈ calls →
         newRanges ≠ [] ∧ isLastBackward = isBackward0
         ∧ calls = [setRanges newRanges isLastBackward]).
Proof.
  destruct (restoreSelection_selectionRanges ranges0 isBackward0 deltas this)
    as (kept & Hf & Hr).
  split.
  - intros Hall. rewrite Hr.
    assert (omap id kept = []) as ->.
    { clear Hr. induction Hf as [|range k l kept (cands & Hc & Hk) _ IH];
        [done|].
      apply Forall_cons in Hall as [(cands' & Hc' & Hg) Hall].
      assert (cands' = cands) as -> by congruence.
      rewrite (keptOf_all_in_graveyard _ _ _ Hg Hk). simpl.
      by apply IH. }
    simpl. by destruct this as [[doc] ? ? ?].
  - intros this' calls. rewrite Hr. intros [= <- <-] newRanges b.
    case_decide as Hk; [by intros ?%elem_of_nil|].
    intros [= -> ->]%list_elem_of_singleton. by repeat split.
Qed.

(** ** Properties of the stack *)

(** One mutation of the stack: [addBatch], [clearStack], or a pop by
    the orchestrator. *)
Inductive mutates : BaseCommand → BaseCommand → Prop :=
| mutates_addBatch batch0 this : mutates this (addBatch batch0 this)
| mutates_clearStack this : mutates this (clearStack this)
| mutates_pop this item this' :
    orchestrator_pop this = Some (item, this') → mutates this this'.

(** [run this states]: [states] are the states of the command after
    each mutation of a sequence that starts from [this]. *)
Inductive run : BaseCommand → list BaseCommand → Prop :=
| run_nil this : run this []
| run_cons this this' states :
    mutates this this' → run this' states → run this (this' :: states).

Lemma refreshState_enabled this :
  isEnabled (refreshState this) = bool_decide (_stack (refreshState this) ≠ []).
Proof.
  simpl. unfold _checkEnabled. destruct (_stack this) as [|item l]; [done|].
  rewrite !bool_decide_true; [done|done|simpl; lia].
Qed.

Lemma mutates_enabled this this' :
  mutates this this' → isEnabled this' = bool_decide (_stack this' ≠ []).
Proof.
  destruct 1 as [batch0 this|this|this item this' Hpop].
  - apply refreshState_enabled.
  - apply refreshState_enabled.
  - unfold orchestrator_pop in Hpop.
    destruct (last (_stack this)); simplify_eq/=.
    apply refreshState_enabled.
Qed.

(** C5.  After every mutation of any sequence of [addBatch],
    [clearStack] and orchestrator pops, from any state of the command,
    [isEnabled] is true exactly when the stack is non-empty. *)
Theorem stack_enablement (this : BaseCommand) (states : list BaseCommand) :
  run this states →
  Forall (λ s, isEnabled s = bool_decide (_stack s ≠ [])) states.
Proof.
  induction 1 as [|this this' states Hm _ IH]; constructor; [|done].
  by eapply mutates_enabled.
Qed.

(** C8.  [addBatch] pushes the pair of the batch and the selection of
    the document, its ranges and its [isBackward] flag, onto the stack,
    and recomputes enablement (the command is enabled); the editor,
    with its document and selection, and the set of created batches
    are as before. *)
Theorem addBatch_records_selection (batch0 : Batch) (this : BaseCommand) :
  let current := document_selection (document (editor this)) in
  _stack (addBatch batch0 this)
  = _stack this
      ++ [ {| batch := batch0;
              selection := {| ranges := ranges current;
                              isBackward := isBackward current |} |} ]
  ∧ isEnabled (addBatch batch0 this) = _checkEnabled (addBatch batch0 this)
  ∧ isEnabled (addBatch batch0 this) = true
  ∧ editor (addBatch batch0 this) = editor this
  ∧ _createdBatches (addBatch batch0 this) = _createdBatches this.
Proof.
  simpl. repeat split. unfold _checkEnabled. simpl.
  apply bool_decide_true. rewrite length_app. simpl. lia.
Qed.

(** C10.  A freshly constructed command has an empty stack and an
    empty set of created batches, and, enablement being recomputed in
    the constructor, it is disabled whatever [super] left in
    [isEnabled]. *)
Theorem constructor_disabled (editor0 : Editor) (enabled0 : bool) :
  _stack (constructor editor0 enabled0) = []
  ∧ _createdBatches (constructor editor0 enabled0) = ∅
  ∧ isEnabled (constructor editor0 enabled0) = false
  ∧ editor (constructor editor0 enabled0) = editor0.
Proof. done. Qed.

(** ** Further properties of [transformDelta] *)

Lemma for_toTransform_results setToTransformBy isStrong results l :
  for_toTransform setToTransformBy isStrong results l
  = (results ++.) <$> for_toTransform setToTransformBy isStrong [] l.
Proof.
  revert results. induction l as [|d l IH]; intros results; simpl.
  - by rewrite app_nil_r.
  - destruct (for_t setToTransformBy isStrong [d] 0) as [to|]; simpl; [|done].
    rewrite (IH (results ++ to)), (IH to).
    destruct (for_toTransform setToTransformBy isStrong [] l) as [r|]; simpl;
      [|done].
    by rewrite app_assoc.
Qed.

Lemma for_toTransform_app setToTransformBy isStrong results l1 l2 :
  for_toTransform setToTransformBy isStrong results (l1 ++ l2)
  = for_toTransform setToTransformBy isStrong results l1
      ≫= λ r, for_toTransform setToTransformBy isStrong r l2.
Proof.
  revert results. induction l1 as [|d l1 IH]; intros results; simpl; [done|].
  destruct (for_t setToTransformBy isStrong [d] 0) as [to|]; simpl; [|done].
  apply IH.
Qed.

(** X1.  [transformDelta] works delta by delta: the result for a set
    that is the concatenation of two sets is the concatenation of the
    results for the two sets, and it raises when one of them does. *)
Theorem transformDelta_app (D1 D2 setToTransformBy : list Delta)
    (isStrong : bool) :
  transformDelta (D1 ++ D2) setToTransformBy isStrong
  = l1 ← transformDelta D1 setToTransformBy isStrong;
    l2 ← transformDelta D2 setToTransformBy isStrong;
    Some (l1 ++ l2).
Proof.
  unfold transformDelta. rewrite for_toTransform_app.
  destruct (for_toTransform setToTransformBy isStrong [] D1) as [l1|]; simpl;
    [|done].
  rewrite for_toTransform_results.
  by destruct (for_toTransform setToTransformBy isStrong [] D2).
Qed.

Lemma transformDelta_cons toTransform D setToTransformBy isStrong :
  transformDelta (toTransform :: D) setToTransformBy isStrong
  = to ← transformLast isStrong setToTransformBy [toTransform];
    l ← transformDelta D setToTransformBy isStrong;
    Some (to ++ l).
Proof.
  unfold transformDelta. simpl. rewrite for_t_single.
  destruct (transformLast isStrong setToTransformBy [toTransform]) as [to|];
    simpl; [|done].
  rewrite for_toTransform_results.
  by destruct (for_toTransform setToTransformBy isStrong [] D).
Qed.

(** X2.  Transforming by a single delta replaces every delta of the set,
    in place and in order, by the results [transform] gives for it; a
    delta with no result is dropped. *)
Theorem transformDelta_by_one (D : list Delta) (transformBy : Delta)
    (isStrong : bool) :
  transformDelta D [transformBy] isStrong
  = Some (flat_map (λ a, transform a transformBy isStrong) D).
Proof.
  induction D as [|d D IH]; [done|].
  rewrite transformDelta_cons, IH. done.
Qed.

Lemma transformLast_no_split isStrong l a :
  (∀ a b, length (transform a b isStrong) = 1) →
  transformLast isStrong l [a]
  = Some (fold_left (λ to b, flat_map (λ a, transform a b isStrong) to) l [a]).
Proof.
  intros Hone. revert a. induction l as [|b l IH]; intros a; simpl; [done|].
  rewrite app_nil_r. specialize (Hone a b).
  destruct (transform a b isStrong) as [|x [|??]]; simplify_eq/=. apply IH.
Qed.

(** X3.  When [transform] returns exactly one delta for every pair of
    deltas, so that nothing is ever split or dropped, [transformDelta]
    transforms every delta of the set by every delta of
    [setToTransformBy] in turn, and returns as many deltas as it was
    given. *)
Theorem transformDelta_no_split (D setToTransformBy : list Delta)
    (isStrong : bool) :
  (∀ a b, length (transform a b isStrong) = 1) →
  transformDelta D setToTransformBy isStrong
  = Some (transformDelta_spec D setToTransformBy isStrong)
  ∧ length (transformDelta_spec D setToTransformBy isStrong) = length D.
Proof.
  intros Hone.
  assert (∀ a, length (fold_left
                         (λ to b, flat_map (λ a, transform a b isStrong) to)
                         setToTransformBy [a]) = 1) as Hlen.
  { induction setToTransformBy as [|b l IH]; intros a; simpl; [done|].
    rewrite app_nil_r. specialize (Hone a b).
    destruct (transform a b isStrong) as [|x [|??]]; simplify_eq/=. apply IH. }
  induction D as [|d D [IH1 IH2]]; [done|].
  rewrite transformDelta_cons, transformLast_no_split, IH1 by done.
  split; [done|]. unfold transformDelta_spec in *. simpl.
  rewrite length_app, Hlen, IH2. done.
Qed.

Lemma transformLast_nonempty isStrong l to :
  (∀ a b, transform a b isStrong ≠ []) →
  to ≠ [] →
  ∃ to', transformLast isStrong l to = Some to' ∧ length to ≤ length to'.
Proof.
  intros Hne. revert to. induction l as [|b l IH]; intros to Hto; simpl.
  - by exists to.
  - destruct to as [|a to _] using rev_ind; [done|].
    rewrite last_snoc, removelast_last. simpl.
    destruct (IH (to ++ transform a b isStrong)) as (to' & -> & Hlen).
    { specialize (Hne a b). by destruct to, (transform a b isStrong). }
    exists to'. split; [done|]. rewrite !length_app in *. simpl.
    specialize (Hne a b). destruct (transform a b isStrong); [done|].
    simpl in *. lia.
Qed.

(** X4.  When [transform] never returns an empty array, [transformDelta]
    does not raise, and no delta of the set is lost: the result has at
    least as many deltas as the set. *)
Theorem transformDelta_nonempty_results (D setToTransformBy : list Delta)
    (isStrong : bool) :
  (∀ a b, transform a b isStrong ≠ []) →
  ∃ results, transformDelta D setToTransformBy isStrong = Some results
             ∧ length D ≤ length results.
Proof.
  intros Hne. induction D as [|d D (results & IH & Hlen)].
  - by exists [].
  - rewrite transformDelta_cons, IH.
    destruct (transformLast_nonempty isStrong setToTransformBy [d] Hne)
      as (to & -> & Hto); [done|].
    simpl. eexists. split; [done|]. rewrite length_app. simpl in *. lia.
Qed.

(** ** Further properties of [transformRangesByDeltas] *)

Lemma fold_transformedBy_app l (ranges1 ranges2 : list Range) :
  fold_left (λ rs operation, flat_map (transformedBy operation) rs)
    l (ranges1 ++ ranges2)
  = fold_left (λ rs operation, flat_map (transformedBy operation) rs) l ranges1
    ++ fold_left (λ rs operation, flat_map (transformedBy operation) rs) l ranges2.
Proof.
  revert ranges1 ranges2.
  induction l as [|operation l IH]; intros ranges1 ranges2; simpl; [done|].
  by rewrite flat_map_app, IH.
Qed.

(** X5.  Transforming by a history given in two parts is transforming by
    the first part and then transforming the outcome by the second
    part. *)
Theorem transformRangesByDeltas_app (ranges0 : list Range)
    (deltas1 deltas2 : list Delta) :
  transformRangesByDeltas ranges0 (deltas1 ++ deltas2)
  = transformRangesByDeltas ranges0 deltas1
      ≫= λ ranges1, transformRangesByDeltas ranges1 deltas2.
Proof.
  unfold transformRangesByDeltas. rewrite !for_delta_fold. simpl.
  rewrite for_delta_fold. f_equal.
  unfold transformRangesByDeltas_spec. by rewrite flat_map_app, fold_left_app.
Qed.

(** X6.  The ranges of the working set are transformed independently of
    each other: the result for the concatenation of two sets is the
    concatenation of the results, the ranges that stem from the first
    set before those that stem from the second. *)
Theorem transformRangesByDeltas_ranges_app (ranges1 ranges2 : list Range)
    (deltas : list Delta) :
  transformRangesByDeltas (ranges1 ++ ranges2) deltas
  = transformed1 ← transformRangesByDeltas ranges1 deltas;
    transformed2 ← transformRangesByDeltas ranges2 deltas;
    Some (transformed1 ++ transformed2).
Proof.
  unfold transformRangesByDeltas. rewrite !for_delta_fold. simpl. f_equal.
  apply fold_transformedBy_app.
Qed.

(** X7.  How the operations are grouped into deltas does not matter:
    the result is that of a single delta holding the operations of all
    deltas in their order. *)
Theorem transformRangesByDeltas_flatten (ranges0 : list Range)
    (deltas : list Delta) (version : Z) :
  transformRangesByDeltas ranges0 deltas
  = transformRangesByDeltas ranges0
      [mkDelta version (flat_map operations deltas)].
Proof.
  unfold transformRangesByDeltas. rewrite !for_delta_fold. f_equal.
  unfold transformRangesByDeltas_spec. simpl. by rewrite app_nil_r.
Qed.

(** X8.  Move, remove and reinsert operations take the same path: two
    such operations with the same source position, target position and
    number of nodes transform every working set alike, whatever their
    other properties. *)
Theorem move_remove_reinsert_alike (operation1 operation2 : Operation)
    (ranges0 : list Range) :
  type operation1 = "move" ∨ type operation1 = "remove"
    ∨ type operation1 = "reinsert" →
  type operation2 = "move" ∨ type operation2 = "remove"
    ∨ type operation2 = "reinsert" →
  sourcePosition operation1 = sourcePosition operation2 →
  targetPosition operation1 = targetPosition operation2 →
  howMany operation1 = howMany operation2 →
  for_i operation1 ranges0 0 = for_i operation2 ranges0 0.
Proof.
  intros H1 H2 Hs Ht Hn. rewrite !for_i_flat_map. f_equal.
  apply flat_map_ext. intros r. unfold transformedBy.
  rewrite (decide_False (P := type operation1 = "insert"))
    by (intros He; rewrite He in H1; by destruct H1 as [|[|]]).
  rewrite (decide_False (P := type operation2 = "insert"))
    by (intros He; rewrite He in H2; by destruct H2 as [|[|]]).
  rewrite !decide_True by done. by rewrite Hs, Ht, Hn.
Qed.

Lemma flat_map_length_le {A} (f : A → list A) (l : list A) :
  (∀ x, f x ≠ []) → length l ≤ length (flat_map f l).
Proof.
  intros Hf. induction l as [|x l IH]; simpl; [done|].
  rewrite length_app. specialize (Hf x). destruct (f x); [done|]. simpl. lia.
Qed.

(** X9.  When the engine never returns an empty array for a range,
    no range of the working set is lost: [transformRangesByDeltas]
    returns at least as many ranges as it was given. *)
Theorem transformRangesByDeltas_no_range_lost (ranges0 : list Range)
    (deltas : list Delta) :
  (∀ r p n, _getTransformedByInsertion r p n true ≠ []) →
  (∀ r s t n, _getTransformedByMove r s t n true ≠ []) →
  ∃ transformed, transformRangesByDeltas ranges0 deltas = Some transformed
                 ∧ length ranges0 ≤ length transformed.
Proof.
  intros Hi Hm. unfold transformRangesByDeltas. rewrite for_delta_fold.
  eexists. split; [done|]. unfold transformRangesByDeltas_spec.
  generalize (flat_map operations deltas). intros l. revert ranges0.
  induction l as [|operation l IH]; intros ranges0; simpl; [done|].
  etrans; [|apply IH]. apply flat_map_length_le. intros r.
  unfold transformedBy. repeat case_decide; auto.
Qed.

(** ** Further properties of [_restoreSelection] and [transformSelectionRange] *)

(** X10.  The restoration never makes more ranges than were recorded:
    the array passed to [setRanges] is at most as long as the array of
    recorded ranges, so that a selection of one range is restored as a
    selection of one range or not at all. *)
Theorem restoreSelection_no_more_ranges
    (ranges0 : list Range) (isBackward0 : bool) (deltas : list Delta)
    (this : BaseCommand) :
  ∃ this' calls,
    _restoreSelection ranges0 isBackward0 deltas this = Some (this', calls)
    ∧ ∀ newRanges isLastBackward,
        setRanges newRanges isLastBackward ∈ calls →
        length newRanges ≤ length ranges0.
Proof.
  destruct (restoreSelection_selectionRanges ranges0 isBackward0 deltas this)
    as (kept & Hf & Hr).
  eexists _, _. split; [exact Hr|]. intros newRanges b.
  case_decide; [by intros ?%elem_of_nil|].
  intros [= -> ->]%list_elem_of_singleton.
  rewrite (Forall2_length _ _ _ Hf).
  clear. induction kept as [|k kept IH]; [done|]. destruct k as [x|].
  - change (S (length (omap id kept)) ≤ S (length kept)). lia.
  - change (length (omap id kept) ≤ S (length kept)). lia.
Qed.

(** No operation of the deltas is an insert, move, remove or reinsert
    operation. *)
Definition noRangeOperation (deltas : list Delta) : Prop :=
  ∀ delta operation, delta ∈ deltas → operation ∈ operations delta →
    ¬ (type operation = "insert" ∨ type operation = "move"
       ∨ type operation = "remove" ∨ type operation = "reinsert").

Lemma transformRangesByDeltas_spec_noRangeOperation ranges0 deltas :
  noRangeOperation deltas → transformRangesByDeltas_spec ranges0 deltas = ranges0.
Proof.
  intros Hno. unfold transformRangesByDeltas_spec.
  assert (Forall (λ operation, ∀ r, transformedBy operation r = [r])
            (flat_map operations deltas)) as Hall.
  { apply Forall_forall. intros operation Hin%list_elem_of_In r.
    apply in_flat_map in Hin as (delta & Hd%list_elem_of_In & Ho%list_elem_of_In).
    apply transformedBy_other. by eapply Hno. }
  clear Hno. revert ranges0.
  induction Hall as [|operation l Ho _ IH]; intros ranges0; simpl; [done|].
  by rewrite flat_map_singleton.
Qed.

Section SortRearranges.
(** [Array.prototype.sort] rearranges the array it is given: whatever the
    order it leaves, the result holds the elements of the array, each as
    often as the array does. *)
Hypothesis sort_perm : ∀ comparefn0 l, sort comparefn0 l ≡ₚ l.

Lemma transformSelectionRange_noRangeOperation range deltas :
  noRangeOperation deltas → transformSelectionRange range deltas = Some [range].
Proof.
  intros Hno. unfold transformSelectionRange, transformRangesByDeltas.
  rewrite for_delta_fold. simpl.
  rewrite transformRangesByDeltas_spec_noRangeOperation by done.
  rewrite for_merge_1.
  pose proof (sort_perm comparefn [range]) as Hperm.
  apply Permutation_singleton_r in Hperm. by rewrite Hperm.
Qed.

(** X11.  With no deltas, or with deltas that hold no insert, move,
    remove or reinsert operation, [transformSelectionRange] returns the
    range itself as the only candidate. *)
Theorem transformSelectionRange_unchanged (range : Range) (deltas : list Delta) :
  noRangeOperation deltas →
  transformSelectionRange range deltas = Some [range]
  ∧ transformSelectionRange range [] = Some [range].
Proof.
  intros Hno. split; [by apply transformSelectionRange_noRangeOperation|].
  apply transformSelectionRange_noRangeOperation. by intros ?? ?%elem_of_nil.
Qed.

Lemma mergeTouching_ends a rest :
  sublist (end_ <$> mergeTouching a rest) (end_ <$> a :: rest).
Proof.
  revert a. induction rest as [|b rest IH]; intros a; cbn [mergeTouching].
  - done.
  - destruct (isTouching (end_ a) (start b)).
    + rewrite fmap_cons. apply sublist_cons. apply (IH (mkRange (start a) (end_ b))).
    + rewrite !(fmap_cons _ a). apply sublist_skip, IH.
Qed.

(** X12.  Whatever order the sort leaves, sorting and merging recombine
    the boundaries of the transformed ranges and invent none:
    [transformSelectionRange] returns no more
    ranges than [transformRangesByDeltas] gave for the range, none only
    if there were none, and every range it returns starts where one of
    them starts and ends where one of them ends. *)
Theorem transformSelectionRange_boundaries (range : Range)
    (deltas : list Delta) :
  ∃ transformed merged,
    transformRangesByDeltas [range] deltas = Some transformed
    ∧ transformSelectionRange range deltas = Some merged
    ∧ length merged ≤ length transformed
    ∧ (merged = [] ↔ transformed = [])
    ∧ Forall (λ r, start r ∈ start <$> transformed
                   ∧ end_ r ∈ end_ <$> transformed) merged.
Proof.
  unfold transformSelectionRange, transformRangesByDeltas.
  rewrite for_delta_fold. simpl. rewrite for_merge_1.
  eexists _, _. split; [done|]. split; [done|].
  pose proof (sort_perm comparefn
                (transformRangesByDeltas_spec [range] deltas)) as Hperm.
  destruct (sort comparefn _) as [|a rest].
  - apply Permutation.Permutation_nil in Hperm. rewrite Hperm.
    split; [simpl; lia|]. split; [done|constructor].
  - destruct (mergeTouching_starts a rest) as (tl & Hst & Hsub).
    pose proof (mergeTouching_ends a rest) as Hends.
    assert (sublist (start <$> mergeTouching a rest) (start <$> a :: rest))
      as Hstarts by (rewrite Hst, fmap_cons; by apply sublist_skip).
    split; [|split].
    + rewrite <- Hperm, <- (length_fmap start), <- (length_fmap start (a :: rest)).
      by apply sublist_length.
    + split; intros Heq.
      * by rewrite Heq in Hst.
      * rewrite Heq in Hperm. symmetry in Hperm.
        by apply Permutation.Permutation_nil in Hperm.
    + apply Forall_forall. intros r Hr. rewrite <- !Hperm. split.
      * eapply elem_of_sublist; [|exact Hstarts]. by apply list_elem_of_fmap_2.
      * eapply elem_of_sublist; [|exact Hends]. by apply list_elem_of_fmap_2.
Qed.

Lemma mergeTouching_none a rest :
  (∀ x y, x ∈ a :: rest → y ∈ a :: rest →
     isTouching (end_ x) (start y) = false) →
  mergeTouching a rest = a :: rest.
Proof.
  revert a. induction rest as [|b rest IH]; intros a Hno; simpl; [done|].
  rewrite Hno; [|apply list_elem_of_here
                 |apply list_elem_of_further, list_elem_of_here].
  f_equal. apply IH.
  intros x y Hx Hy. apply Hno; by apply list_elem_of_further.
Qed.

(** X13.  When the end of no transformed range touches the start of a
    transformed range, nothing is merged: [transformSelectionRange]
    returns the transformed ranges as the sort arranges them, each of
    them once. *)
Theorem transformSelectionRange_nothing_to_merge (range : Range)
    (deltas : list Delta) (transformed : list Range) :
  transformRangesByDeltas [range] deltas = Some transformed →
  (∀ a b, a ∈ transformed → b ∈ transformed →
     isTouching (end_ a) (start b) = false) →
  ∃ merged,
    transformSelectionRange range deltas = Some merged
    ∧ merged = sort comparefn transformed
    ∧ merged ≡ₚ transformed.
Proof.
  intros Ht Hno. unfold transformSelectionRange. rewrite Ht. simpl.
  rewrite for_merge_1.
  pose proof (sort_perm comparefn transformed) as Hperm.
  exists (sort comparefn transformed). split; [|done]. f_equal.
  destruct (sort comparefn transformed) as [|a rest]; [done|].
  apply mergeTouching_none. intros x y Hx Hy. apply Hno; by rewrite <- Hperm.
Qed.

Lemma for_range_noRangeOperation doc deltas selectionRanges l :
  noRangeOperation deltas →
  for_range doc deltas selectionRanges l
  = Some (selectionRanges ++ List.filter (notInGraveyard doc) l).
Proof.
  intros Hno. revert selectionRanges.
  induction l as [|range l IH]; intros acc; simpl.
  - by rewrite app_nil_r.
  - rewrite transformSelectionRange_noRangeOperation by done. simpl.
    destruct (notInGraveyard doc range); rewrite IH; [|done].
    by rewrite <- app_assoc.
Qed.

(** X14.  When nothing that moves ranges has happened since the
    selection was recorded (no deltas, or deltas without insert, move,
    remove or reinsert operations), the restoration passes to
    [setRanges] the recorded ranges that do not start in the graveyard,
    in their order, with the recorded flag, and calls nothing when there
    is no such range. *)
Theorem restoreSelection_without_transformation
    (ranges0 : list Range) (isBackward0 : bool) (deltas : list Delta)
    (this : BaseCommand) :
  noRangeOperation deltas →
  snd <$> _restoreSelection ranges0 isBackward0 deltas this
  = Some
      match List.filter (notInGraveyard (document (editor this))) ranges0 with
      | [] => []
      | outside => [setRanges outside isBackward0]
      end.
Proof.
  intros Hno. unfold _restoreSelection.
  rewrite for_range_noRangeOperation by done. simpl.
  destruct (List.filter _ ranges0); simpl; by repeat case_decide.
Qed.

End SortRearranges.

(** ** Further properties of the stack *)

(** X15.  A sequence of [addBatch] calls appends one item per batch to
    the stack, in the order of the calls and after the items the stack
    held, each with the selection of the document; the editor and the
    set of created batches stay as they were. *)
Theorem addBatch_sequence (batches : list Batch) (this : BaseCommand) :
  _stack (fold_left (λ command batch0, addBatch batch0 command) batches this)
  = _stack this
      ++ ((λ batch0,
             {| batch := batch0;
                selection :=
                  {| ranges :=
                       ranges (document_selection (document (editor this)));
                     isBackward :=
                       isBackward
                         (document_selection (document (editor this))) |} |})
            <$> batches)
  ∧ editor (fold_left (λ command batch0, addBatch batch0 command) batches this)
    = editor this
  ∧ _createdBatches
      (fold_left (λ command batch0, addBatch batch0 command) batches this)
    = _createdBatches this.
Proof.
  revert this. induction batches as [|batch0 batches IH]; intros this; simpl.
  - by rewrite app_nil_r.
  - destruct (IH (addBatch batch0 this)) as (Hs & He & Hc).
    simpl in *. rewrite Hs, He, Hc. by rewrite <- app_assoc.
Qed.

End Undo.

(** ** A document of flat roots, for examples

    Positions are a root (a number, [0] the graveyard) and an offset.
    A position is before another one of the same root with a greater
    offset; positions of different roots are not ordered.  Touching
    means equal.  Ranges are transformed as on one line of text: an
    insertion inside a range spreads it, a move gives what is left of the
    range, placed around the moved nodes where they land inside it, and
    then the moved part of the range. *)

Definition FlatPosition : Type := nat * Z.
Definition FlatRange : Type := @Range FlatPosition.

Definition flat_isBefore (p q : FlatPosition) : bool :=
  bool_decide (p.1 = q.1) && bool_decide (p.2 < q.2)%Z.

Definition flat_isTouching (p q : FlatPosition) : bool :=
  bool_decide (p.1 = q.1) && bool_decide (p.2 = q.2).

Definition flat_getTransformedByInsertion (r : FlatRange) (p : FlatPosition)
    (n : Z) (spread : bool) : list FlatRange :=
  let s := start r in
  let e := end_ r in
  if negb (bool_decide (p.1 = s.1)) then [r]
  else if bool_decide (p.2 ≤ s.2)%Z then
    [mkRange (s.1, s.2 + n)%Z (e.1, e.2 + n)%Z]
  else if bool_decide (p.2 < e.2)%Z then
    if spread then [mkRange s p; mkRange (p.1, p.2 + n)%Z (e.1, e.2 + n)%Z]
    else [mkRange s (e.1, e.2 + n)%Z]
  else [r].

(** An offset after the removal of [n] nodes at offset [src]. *)
Definition flat_deleted (src n off : Z) : Z :=
  if bool_decide (off ≤ src)%Z then off
  else if bool_decide (src + n ≤ off)%Z then (off - n)%Z
  else src.

Definition flat_getTransformedByMove (r : FlatRange) (src tgt : FlatPosition)
    (n : Z) (spread : bool) : list FlatRange :=
  let s := start r in
  let e := end_ r in
  if negb (bool_decide (src.1 = s.1)) then
    flat_getTransformedByInsertion r tgt n spread
  else
    let tgt' :=
      if bool_decide (tgt.1 = src.1) then (tgt.1, flat_deleted src.2 n tgt.2)
      else tgt in
    let cs := Z.max s.2 src.2 in
    let ce := Z.min e.2 (src.2 + n) in
    let difference :=
      if bool_decide (s.2 < src.2 ∨ src.2 + n < e.2)%Z then
        flat_getTransformedByInsertion
          (mkRange (s.1, flat_deleted src.2 n s.2) (e.1, flat_deleted src.2 n e.2))
          tgt' n spread
      else [] in
    let common :=
      if bool_decide (cs < ce)%Z then
        [mkRange (tgt'.1, tgt'.2 + (cs - src.2))%Z (tgt'.1, tgt'.2 + (ce - src.2))%Z]
      else [] in
    difference ++ common.

Definition flat_root (p : FlatPosition) : nat := p.1.

Definition flat_range (root0 : nat) (from to : Z) : FlatRange :=
  mkRange (root0, from) (root0, to).

Definition flat_remove (root0 : nat) (from n : Z) : @Operation FlatPosition :=
  {| type := "remove"; position := (0, 0%Z); nodes_maxOffset := 0;
     sourcePosition := (root0, from); targetPosition := (0, 0%Z); howMany := n |}.

Definition flat_move (root0 : nat) (from n : Z) (to : Z) : @Operation FlatPosition :=
  {| type := "move"; position := (0, 0%Z); nodes_maxOffset := 0;
     sourcePosition := (root0, from); targetPosition := (root0, to); howMany := n |}.

Definition flat_insert (root0 : nat) (at_ n : Z) : @Operation FlatPosition :=
  {| type := "insert"; position := (root0, at_); nodes_maxOffset := n;
     sourcePosition := (0, 0%Z); targetPosition := (0, 0%Z); howMany := 0 |}.

Definition flat_noop : @Operation FlatPosition :=
  {| type := "noop"; position := (0, 0%Z); nodes_maxOffset := 0;
     sourcePosition := (0, 0%Z); targetPosition := (0, 0%Z); howMany := 0 |}.

(** The functions of the command over flat positions, run with insertion
    sort for [Array.prototype.sort]; the order of the ranges in the
    examples below is the one this sort leaves. *)
Definition flat_transformSelectionRange :=
  transformSelectionRange flat_getTransformedByInsertion flat_getTransformedByMove
    flat_isBefore flat_isTouching JsArray.insertionSort.

Definition flat_restoreSelection :=
  _restoreSelection (Batch := nat) flat_getTransformedByInsertion
    flat_getTransformedByMove flat_isBefore flat_isTouching
    JsArray.insertionSort flat_root.

(** A delta without operations, told from others by its version. *)
Definition flat_delta (version : Z) : @Delta FlatPosition := mkDelta version [].

(** A transform for examples.  A delta of version [1] splits the delta it
    transforms in two; any other delta adds a hundred times its version
    to the version of the delta it transforms, so that the version of a
    result shows which deltas have transformed it. *)
Definition flat_transform (a b : @Delta FlatPosition) (isStrong : bool)
  : list (@Delta FlatPosition) :=
  if decide (baseVersion b = 1%Z) then
    [flat_delta (baseVersion a + 10)%Z; flat_delta (baseVersion a + 20)%Z]
  else [flat_delta (baseVersion a + 100 * baseVersion b)%Z].

(** An editor whose document has the graveyard root [0] and one range
    selected in root [1], and a command freshly made for it. *)
Definition flat_editor : @Editor FlatPosition nat :=
  {| document :=
       {| document_selection :=
            {| ranges := [flat_range 1 2 8]; isBackward := false |};
          graveyard := 0 |} |}.

Definition flat_command : @BaseCommand FlatPosition nat nat _ _ :=
  constructor flat_editor true.

(** The command after a pop by the orchestrator. *)
Definition after_pop (this : @BaseCommand FlatPosition nat nat _ _)
  : @BaseCommand FlatPosition nat nat _ _ :=
  match orchestrator_pop this with
  | Some (_, this') => this'
  | None => this
  end.

(** The reading of the specification for C2: no two ranges of the array
    touch, wherever they are placed in it. *)
Definition noTouchingPair {Position : Type}
    (isTouching : Position → Position → bool) (l : list (@Range Position)) : Prop :=
  ∀ i j a b, l !! i = Some a → l !! j = Some b → i ≠ j →
    isTouching (end_ a) (start b) = false.

(** ** Examples *)

(** A range over the offsets 2 to 7: after the removal of the offsets 4
    and 5 the range ends at 6 and the removed part is a candidate in the
    graveyard, which insertion sort places first; an insertion of 3
    nodes at 4 leaves the two parts around the inserted nodes. *)
Example transformSelectionRange_remove :
  flat_transformSelectionRange (flat_range 1 2 8) [mkDelta 0 [flat_remove 1 4 2]]
  = Some [flat_range 0 0 2; flat_range 1 2 6].
Proof. vm_compute. reflexivity. Qed.

Example transformSelectionRange_insert :
  flat_transformSelectionRange (flat_range 1 2 8) [mkDelta 0 [flat_insert 1 4 3]]
  = Some [flat_range 1 2 4; flat_range 1 7 11].
Proof. vm_compute. reflexivity. Qed.

(** The restoration keeps the first candidate outside the graveyard. *)
Example restoreSelection_remove :
  flat_restoreSelection [flat_range 1 2 8] true
    [mkDelta 0 [flat_remove 1 4 2]] flat_command
  = Some ({| editor :=
               {| document :=
                    {| document_selection :=
                         {| ranges := [flat_range 1 2 6]; isBackward := true |};
                       graveyard := 0 |} |};
             isEnabled := false;
             _stack := [];
             _createdBatches := ∅ |},
          [setRanges [flat_range 1 2 6] true]).
Proof. vm_compute. reflexivity. Qed.

(** C1.  The loops of [transformDelta] do not transform every result of
    a split by the remaining deltas.  The delta of version 0 is split by
    the delta of version 1 into the deltas of versions 10 and 20; the
    delta of version 2 then transforms the second of them only, and the
    first is returned as the split left it, where the specification has
    both transformed. *)
Theorem transformDelta_skips_split_result :
  transformDelta flat_transform [flat_delta 0] [flat_delta 1; flat_delta 2] true
  = Some [flat_delta 10; flat_delta 220]
  ∧ transformDelta_spec flat_transform
      [flat_delta 0] [flat_delta 1; flat_delta 2] true
    = [flat_delta 210; flat_delta 220].
Proof. split; vm_compute; reflexivity. Qed.

(** The deltas of the scenario for C2: the nodes at the offsets 10 to 14
    are moved to offset 5, then the two nodes at the offsets 12 and 13
    are removed. *)
Definition touching_deltas : list (@Delta FlatPosition) :=
  [mkDelta 0 [flat_move 1 10 5 5]; mkDelta 1 [flat_remove 1 12 2]].

(** C2.  The sort and the merging loop of [transformSelectionRange] do
    not merge every two touching ranges.  A range over the offsets 5 to
    14 is transformed by [touching_deltas] into the range from 10 to 13,
    the removed part in the graveyard and the range from 5 to 10, in this
    order; the last and the first touch at offset 10.  The comparator
    answers 1 for the graveyard range against either of the others,
    both ways.  With insertion sort the graveyard range ends up between
    the two, with a sort that leaves the array as it is (each element
    compares 1 with the one before it) they stay in the wrong order; in
    both cases nothing is merged.  Whatever the sort makes of the array,
    the result is free of touching ranges only if the sort happened to
    put the range from 5 to 10 right before the range from 10 to 13. *)
Theorem transformSelectionRange_misses_touching_ranges :
  transformRangesByDeltas flat_getTransformedByInsertion
    flat_getTransformedByMove [flat_range 1 5 15] touching_deltas
  = Some [flat_range 1 10 13; flat_range 0 0 2; flat_range 1 5 10]
  ∧ flat_isTouching (end_ (flat_range 1 5 10)) (start (flat_range 1 10 13))
    = true
  ∧ comparefn flat_isBefore (flat_range 1 10 13) (flat_range 0 0 2) = 1%Z
  ∧ comparefn flat_isBefore (flat_range 0 0 2) (flat_range 1 10 13) = 1%Z
  ∧ comparefn flat_isBefore (flat_range 1 5 10) (flat_range 0 0 2) = 1%Z
  ∧ comparefn flat_isBefore (flat_range 0 0 2) (flat_range 1 5 10) = 1%Z
  ∧ flat_transformSelectionRange (flat_range 1 5 15) touching_deltas
    = Some [flat_range 1 5 10; flat_range 0 0 2; flat_range 1 10 13]
  ∧ ¬ noTouchingPair flat_isTouching
        [flat_range 1 5 10; flat_range 0 0 2; flat_range 1 10 13]
  ∧ (∀ sort : (FlatRange → FlatRange → Z) → list FlatRange → list FlatRange,
       sort (comparefn flat_isBefore)
         [flat_range 1 10 13; flat_range 0 0 2; flat_range 1 5 10]
       ≡ₚ [flat_range 1 10 13; flat_range 0 0 2; flat_range 1 5 10] →
       ∃ merged,
         transformSelectionRange flat_getTransformedByInsertion
           flat_getTransformedByMove flat_isBefore flat_isTouching sort
           (flat_range 1 5 15) touching_deltas = Some merged
         ∧ (sort (comparefn flat_isBefore)
              [flat_range 1 10 13; flat_range 0 0 2; flat_range 1 5 10]
            = [flat_range 1 10 13; flat_range 0 0 2; flat_range 1 5 10] →
            merged = [flat_range 1 10 13; flat_range 0 0 2; flat_range 1 5 10])
         ∧ (noTouchingPair flat_isTouching merged →
            sort (comparefn flat_isBefore)
              [flat_range 1 10 13; flat_range 0 0 2; flat_range 1 5 10]
            = [flat_range 1 5 10; flat_range 1 10 13; flat_range 0 0 2]
            ∨ sort (comparefn flat_isBefore)
                [flat_range 1 10 13; flat_range 0 0 2; flat_range 1 5 10]
              = [flat_range 0 0 2; flat_range 1 5 10; flat_range 1 10 13])).
Proof.
  assert (transformRangesByDeltas flat_getTransformedByInsertion
            flat_getTransformedByMove [flat_range 1 5 15] touching_deltas
          = Some [flat_range 1 10 13; flat_range 0 0 2; flat_range 1 5 10])
    as Ht by (vm_compute; reflexivity).
  assert (∀ x y z : FlatRange,
            x = flat_range 1 5 10 → z = flat_range 1 10 13 →
            ¬ noTouchingPair flat_isTouching [x; y; z]) as Hxz.
  { intros x y z -> -> Hno.
    by specialize (Hno 0 2 _ _ eq_refl eq_refl ltac:(lia)). }
  repeat (split; [vm_compute; reflexivity|]).
  split; [by apply Hxz|].
  intros sort Hperm. unfold transformSelectionRange. eexists.
  unfold FlatRange in *. rewrite Ht. simpl. rewrite for_merge_1.
  split; [done|].
  split; [by intros ->|].
  symmetry in Hperm. apply permutations_Permutation in Hperm.
  remember (sort _ _) as sorted eqn:Hsorted. clear Hsorted.
  let l := eval vm_compute in
    (permutations
       [flat_range 1 10 13; flat_range 0 0 2; flat_range 1 5 10]) in
  change (sorted ∈ l) in Hperm.
  repeat (apply elem_of_cons in Hperm as [->|Hperm]);
    [..|by apply elem_of_nil in Hperm].
  all: vm_compute; intros Hno.
  all: first [ left; reflexivity | right; reflexivity | exfalso ].
  all: try by specialize (Hno 0 1 _ _ eq_refl eq_refl ltac:(lia)).
  all: try by specialize (Hno 0 2 _ _ eq_refl eq_refl ltac:(lia)).
  all: try by specialize (Hno 1 0 _ _ eq_refl eq_refl ltac:(lia)).
  all: try by specialize (Hno 1 2 _ _ eq_refl eq_refl ltac:(lia)).
  all: try by specialize (Hno 2 0 _ _ eq_refl eq_refl ltac:(lia)).
  all: try by specialize (Hno 2 1 _ _ eq_refl eq_refl ltac:(lia)).
Qed.

Lemma transformSelectionRange_misses_touching_ranges_witness :
  JsArray.insertionSort (comparefn flat_isBefore)
    [flat_range 1 10 13; flat_range 0 0 2; flat_range 1 5 10]
  ≡ₚ [flat_range 1 10 13; flat_range 0 0 2; flat_range 1 5 10]
  ∧ ∃ merged,
      flat_transformSelectionRange (flat_range 1 5 15) touching_deltas
      = Some merged
      ∧ ¬ noTouchingPair flat_isTouching merged.
Proof.
  split; [apply JsArray.insertionSort_perm|].
  destruct transformSelectionRange_misses_touching_ranges
    as (_ & _ & _ & _ & _ & _ & _ & _ & Hsort).
  destruct (Hsort JsArray.insertionSort (JsArray.insertionSort_perm _ _))
    as (merged & Hmerged & _ & Hno).
  exists merged. split; [exact Hmerged|].
  intros Hn. destruct (Hno Hn) as [E|E]; vm_compute in E; discriminate.
Defined.

Lemma other_operation_leaves_ranges_witness :
  (∀ ranges0 i,
     switch_type flat_getTransformedByInsertion flat_getTransformedByMove
       flat_noop ranges0 i = Some None)
  ∧ (∀ ranges0,
       for_i flat_getTransformedByInsertion flat_getTransformedByMove
         flat_noop ranges0 0 = Some ranges0)
  ∧ (∀ ranges0 deltas1 deltas2 version operations1 operations2,
       transformRangesByDeltas flat_getTransformedByInsertion
         flat_getTransformedByMove ranges0
         (deltas1 ++ mkDelta version (operations1 ++ flat_noop :: operations2)
            :: deltas2)
       = transformRangesByDeltas flat_getTransformedByInsertion
           flat_getTransformedByMove ranges0
           (deltas1 ++ mkDelta version (operations1 ++ operations2) :: deltas2)).
Proof.
  apply (other_operation_leaves_ranges
           flat_getTransformedByInsertion flat_getTransformedByMove flat_noop);
    simpl; discriminate.
Defined.

Lemma restoreSelection_all_degenerate_witness :
  flat_restoreSelection [flat_range 1 0 10] true
    [mkDelta 0 [flat_remove 1 0 10]] flat_command
  = Some (flat_command, []).
Proof.
  apply (restoreSelection_all_degenerate
           flat_getTransformedByInsertion flat_getTransformedByMove
           flat_isBefore flat_isTouching JsArray.insertionSort flat_root).
  constructor; [|constructor].
  exists [flat_range 0 0 10]. split; [vm_compute; reflexivity|].
  constructor; [reflexivity|constructor].
Defined.

Lemma stack_enablement_witness :
  Forall (λ s, isEnabled s = bool_decide (_stack s ≠ []))
    [addBatch 7 flat_command;
     addBatch 8 (addBatch 7 flat_command);
     after_pop (addBatch 8 (addBatch 7 flat_command));
     clearStack (after_pop (addBatch 8 (addBatch 7 flat_command)))].
Proof.
  apply (stack_enablement flat_command).
  apply run_cons; [apply mutates_addBatch|].
  apply run_cons; [apply mutates_addBatch|].
  eapply run_cons; [eapply mutates_pop; reflexivity|].
  apply run_cons; [apply mutates_clearStack|].
  apply run_nil.
Defined.

(** ** Instances of the further properties *)

(** A transform that never splits: it adds a hundred times the version
    of the delta it transforms by. *)
Definition flat_transform_one (a b : @Delta FlatPosition) (isStrong : bool)
  : list (@Delta FlatPosition) :=
  [flat_delta (baseVersion a + 100 * baseVersion b)%Z].

(** Deltas without an operation that moves ranges. *)
Definition flat_noop_deltas : list (@Delta FlatPosition) :=
  [mkDelta 0 [flat_noop]; mkDelta 1 []].

Lemma flat_noop_deltas_noRangeOperation : noRangeOperation flat_noop_deltas.
Proof.
  intros delta operation Hd Ho.
  apply elem_of_cons in Hd as [->|Hd].
  - apply list_elem_of_singleton in Ho as ->. simpl.
    intros [|[|[|]]]; discriminate.
  - apply list_elem_of_singleton in Hd as ->. by apply elem_of_nil in Ho.
Qed.

Lemma flat_getTransformedByInsertion_nonempty r p n spread :
  flat_getTransformedByInsertion r p n spread ≠ [].
Proof.
  unfold flat_getTransformedByInsertion.
  destruct spread; repeat case_match; done.
Qed.

Lemma transformDelta_no_split_witness :
  transformDelta flat_transform_one [flat_delta 0; flat_delta 1]
    [flat_delta 2; flat_delta 3] true
  = Some (transformDelta_spec flat_transform_one [flat_delta 0; flat_delta 1]
            [flat_delta 2; flat_delta 3] true)
  ∧ length (transformDelta_spec flat_transform_one
              [flat_delta 0; flat_delta 1] [flat_delta 2; flat_delta 3] true)
    = 2.
Proof.
  apply (transformDelta_no_split flat_transform_one
           [flat_delta 0; flat_delta 1] [flat_delta 2; flat_delta 3] true).
  intros a b. reflexivity.
Defined.

Lemma transformDelta_nonempty_results_witness :
  ∃ results,
    transformDelta flat_transform [flat_delta 0; flat_delta 5]
      [flat_delta 1; flat_delta 2] true = Some results
    ∧ 2 ≤ length results.
Proof.
  apply (transformDelta_nonempty_results flat_transform
           [flat_delta 0; flat_delta 5] [flat_delta 1; flat_delta 2] true).
  intros a b. unfold flat_transform. case_decide; discriminate.
Defined.

Lemma move_remove_reinsert_alike_witness :
  for_i flat_getTransformedByInsertion flat_getTransformedByMove
    (flat_remove 1 4 2) [flat_range 1 2 8] 0
  = for_i flat_getTransformedByInsertion flat_getTransformedByMove
      {| type := "reinsert"; position := (1, 7%Z); nodes_maxOffset := 3;
         sourcePosition := (1, 4%Z); targetPosition := (0, 0%Z);
         howMany := 2 |}
      [flat_range 1 2 8] 0.
Proof.
  apply move_remove_reinsert_alike; simpl; auto.
Defined.

Lemma transformRangesByDeltas_no_range_lost_witness :
  ∃ transformed,
    transformRangesByDeltas flat_getTransformedByInsertion
      (λ r _ tgt n spread, flat_getTransformedByInsertion r tgt n spread)
      [flat_range 1 2 8; flat_range 1 9 12]
      [mkDelta 0 [flat_insert 1 4 3; flat_move 1 0 1 10]] = Some transformed
    ∧ 2 ≤ length transformed.
Proof.
  apply (transformRangesByDeltas_no_range_lost flat_getTransformedByInsertion
           (λ r _ tgt n spread, flat_getTransformedByInsertion r tgt n spread)
           [flat_range 1 2 8; flat_range 1 9 12]).
  - intros r p n. apply flat_getTransformedByInsertion_nonempty.
  - intros r s t n. apply flat_getTransformedByInsertion_nonempty.
Defined.

Lemma transformSelectionRange_unchanged_witness :
  flat_transformSelectionRange (flat_range 1 2 8) flat_noop_deltas
  = Some [flat_range 1 2 8]
  ∧ flat_transformSelectionRange (flat_range 1 2 8) [] = Some [flat_range 1 2 8].
Proof.
  apply (transformSelectionRange_unchanged flat_getTransformedByInsertion
           flat_getTransformedByMove flat_isBefore flat_isTouching
           JsArray.insertionSort).
  - intros comparefn0 l. apply JsArray.insertionSort_perm.
  - apply flat_noop_deltas_noRangeOperation.
Defined.

Lemma transformSelectionRange_boundaries_witness :
  ∃ transformed merged,
    transformRangesByDeltas flat_getTransformedByInsertion
      flat_getTransformedByMove [flat_range 1 5 15] touching_deltas
    = Some transformed
    ∧ flat_transformSelectionRange (flat_range 1 5 15) touching_deltas
      = Some merged
    ∧ length merged ≤ length transformed
    ∧ (merged = [] ↔ transformed = [])
    ∧ Forall (λ r, start r ∈ start <$> transformed
                   ∧ end_ r ∈ end_ <$> transformed) merged.
Proof.
  apply (transformSelectionRange_boundaries flat_getTransformedByInsertion
           flat_getTransformedByMove flat_isBefore flat_isTouching
           JsArray.insertionSort).
  intros comparefn0 l. apply JsArray.insertionSort_perm.
Defined.

Lemma transformSelectionRange_nothing_to_merge_witness :
  ∃ merged,
    flat_transformSelectionRange (flat_range 1 2 8)
      [mkDelta 0 [flat_remove 1 4 2]] = Some merged
    ∧ merged = JsArray.insertionSort (comparefn flat_isBefore)
                 [flat_range 1 2 6; flat_range 0 0 2]
    ∧ merged ≡ₚ [flat_range 1 2 6; flat_range 0 0 2].
Proof.
  apply (transformSelectionRange_nothing_to_merge
           flat_getTransformedByInsertion flat_getTransformedByMove
           flat_isBefore flat_isTouching JsArray.insertionSort).
  - intros comparefn0 l. apply JsArray.insertionSort_perm.
  - vm_compute. reflexivity.
  - intros a b Ha Hb.
    apply elem_of_cons in Ha as [->|Ha%list_elem_of_singleton];
      apply elem_of_cons in Hb as [->|Hb%list_elem_of_singleton];
      subst; reflexivity.
Defined.

Lemma restoreSelection_without_transformation_witness :
  snd <$> flat_restoreSelection [flat_range 0 0 1; flat_range 1 2 8] true
            flat_noop_deltas flat_command
  = Some [setRanges [flat_range 1 2 8] true].
Proof.
  exact (restoreSelection_without_transformation
           flat_getTransformedByInsertion flat_getTransformedByMove
           flat_isBefore flat_isTouching JsArray.insertionSort flat_root
           (λ comparefn0 l, JsArray.insertionSort_perm comparefn0 l)
           [flat_range 0 0 1; flat_range 1 2 8] true flat_noop_deltas
           flat_command flat_noop_deltas_noRangeOperation).
Defined.

(** * The table size picker: [InsertTableView]

    The view holds a grid of a hundred boxes and the observable
    properties [rows] and [columns]; hovering a box sets both, and the
    listeners of their change events highlight the boxes. *)

Module InsertTableView.

(** [TableSizeGridBoxView]: its observable property [isOn]. *)
Record TableSizeGridBoxView := mkBox { isOn : bool }.

(** [InsertTableView]: the collection [items] and the observable
    properties [rows] and [columns]. *)
Record InsertTableView := mkView {
  items : list TableSizeGridBoxView;
  rows : Z;
  columns : Z }.

(** [Math.floor( index / 10 )] and [index % 10]. *)
Definition rowOf (index : nat) : Z := (Z.of_nat index / 10)%Z.
Definition columnOf (index : nat) : Z := Z.rem (Z.of_nat index) 10.

(** [_highlightGridBoxes()]: every box is set on or off by its index. *)
Definition _highlightGridBoxes (this : InsertTableView) : InsertTableView :=
  {| items :=
       imap (λ index boxView,
               let itemRow := rowOf index in
               let itemColumn := columnOf index in
               let isOn0 := bool_decide (itemRow < rows this)%Z
                            && bool_decide (itemColumn < columns this)%Z in
               {| isOn := isOn0 |})
         (items this);
     rows := rows this;
     columns := columns this |}.

Section Observable.
(** Whether [set( name, value )] of the observable mixin, which is not
    part of the package, fires [change:name] when the property holds
    [old] and is given [value]. *)
Variable fires : Z → Z → bool.

(** [this.set( 'rows', value )] once the listeners are attached: the
    listener of [change:rows] calls [_highlightGridBoxes]. *)
Definition set_rows (value : Z) (this : InsertTableView) : InsertTableView :=
  let this' := {| items := items this; rows := value; columns := columns this |} in
  if fires (rows this) value then _highlightGridBoxes this' else this'.

(** [this.set( 'columns', value )], likewise. *)
Definition set_columns (value : Z) (this : InsertTableView) : InsertTableView :=
  let this' := {| items := items this; rows := rows this; columns := value |} in
  if fires (columns this) value then _highlightGridBoxes this' else this'.

(** The listener of the event [over] of the box created with [index]. *)
Definition over (index : nat) (this : InsertTableView) : InsertTableView :=
  let row := rowOf index in
  let column := columnOf index in
  set_columns (column + 1) (set_rows (row + 1) this).

(** The view after the [over] events of the boxes with the given
    indices, in their order. *)
Definition hover (indices : list nat) (this : InsertTableView)
  : InsertTableView :=
  fold_left (λ view index, over index view) indices this.

End Observable.

(** [constructor( locale )]: [rows] and [columns] are set to [0] before
    any listener is attached, and a hundred boxes, each constructed with
    [isOn] false, are added in the order of their indices. *)
Definition constructor : InsertTableView :=
  {| items := replicate 100 {| isOn := false |}; rows := 0; columns := 0 |}.

(** The boxes that are on are those of the first [rows] rows and the
    first [columns] columns. *)
Definition highlighted (this : InsertTableView) : Prop :=
  ∀ index boxView, items this !! index = Some boxView →
    isOn boxView = bool_decide (rowOf index < rows this)%Z
                   && bool_decide (columnOf index < columns this)%Z.

Lemma highlightGridBoxes_highlighted this :
  highlighted (_highlightGridBoxes this).
Proof.
  intros index boxView. simpl. rewrite list_lookup_imap.
  destruct (items this !! index); simpl; [|done]. by intros [= <-].
Qed.

Lemma view_eq this this' :
  items this = items this' → rows this = rows this' →
  columns this = columns this' → this = this'.
Proof. destruct this, this'. simpl. by intros -> -> ->. Qed.

(** X16.  Highlighting again changes nothing: [_highlightGridBoxes]
    sets every box from its index and from [rows] and [columns] alone,
    and keeps the number of boxes. *)
Theorem highlightGridBoxes_idempotent (this : InsertTableView) :
  _highlightGridBoxes (_highlightGridBoxes this) = _highlightGridBoxes this
  ∧ length (items (_highlightGridBoxes this)) = length (items this).
Proof.
  split; [|simpl; by rewrite length_imap].
  apply view_eq; [|done..]. simpl. apply list_eq. intros index.
  rewrite !list_lookup_imap. by destruct (items this !! index).
Qed.

Section Properties.
Variable fires : Z → Z → bool.
(** A change of the value fires the change event. *)
Hypothesis fires_change : ∀ old value, old ≠ value → fires old value = true.

Lemma fires_false old value : fires old value = false → old = value.
Proof.
  intros Hf. destruct (decide (old = value)) as [|Hne]; [done|].
  by rewrite fires_change in Hf.
Qed.

Lemma set_rows_highlighted value this :
  highlighted this → highlighted (set_rows fires value this).
Proof.
  intros Hh. unfold set_rows.
  destruct (fires (rows this) value) eqn:Hf.
  - apply highlightGridBoxes_highlighted.
  - apply fires_false in Hf. subst value. exact Hh.
Qed.

Lemma set_columns_highlighted value this :
  highlighted this → highlighted (set_columns fires value this).
Proof.
  intros Hh. unfold set_columns.
  destruct (fires (columns this) value) eqn:Hf.
  - apply highlightGridBoxes_highlighted.
  - apply fires_false in Hf. subst value. exact Hh.
Qed.

Lemma over_rows index this : rows (over fires index this) = (rowOf index + 1)%Z.
Proof.
  unfold over, set_columns, set_rows.
  by destruct (fires (rows this) _), (fires _ (columnOf index + 1)%Z).
Qed.

Lemma over_columns index this :
  columns (over fires index this) = (columnOf index + 1)%Z.
Proof.
  unfold over, set_columns, set_rows.
  by destruct (fires (rows this) _), (fires _ (columnOf index + 1)%Z).
Qed.

Lemma over_length index this :
  length (items (over fires index this)) = length (items this).
Proof.
  unfold over, set_columns, set_rows.
  destruct (fires (rows this) _), (fires _ (columnOf index + 1)%Z); simpl;
    by rewrite ?length_imap.
Qed.

Lemma over_highlighted index this :
  highlighted this → highlighted (over fires index this).
Proof. intros Hh. by apply set_columns_highlighted, set_rows_highlighted. Qed.

Lemma hover_highlighted indices this :
  highlighted this → highlighted (hover fires indices this).
Proof.
  revert this. induction indices as [|index indices IH]; intros this Hh; [done|].
  simpl. by apply IH, over_highlighted.
Qed.

Lemma hover_length indices this :
  length (items (hover fires indices this)) = length (items this).
Proof.
  revert this. induction indices as [|index indices IH]; intros this; [done|].
  simpl. by rewrite IH, over_length.
Qed.

Lemma constructor_highlighted : highlighted constructor.
Proof.
  intros index boxView [-> _]%lookup_replicate. simpl.
  symmetry. apply andb_false_iff. left. apply bool_decide_false.
  unfold rowOf. pose proof (Z.div_pos (Z.of_nat index) 10). lia.
Qed.

Lemma rowOf_columnOf index :
  index < 100 →
  (0 ≤ rowOf index < 10 ∧ 0 ≤ columnOf index < 10
   ∧ rowOf index * 10 + columnOf index = Z.of_nat index)%Z.
Proof.
  intros Hi. unfold rowOf, columnOf.
  rewrite Z.rem_mod_nonneg by lia.
  pose proof (Z.div_mod (Z.of_nat index) 10 ltac:(lia)).
  pose proof (Z.mod_pos_bound (Z.of_nat index) 10 ltac:(lia)).
  assert (0 ≤ Z.of_nat index / 10 < 10)%Z; [|lia].
  split; [apply Z.div_pos; lia|apply Z.div_lt_upper_bound; lia].
Qed.

(** X17.  Hovering the box with a given index of the grid sets [rows]
    and [columns] to the numbers, between 1 and 10, of its row and its
    column, whatever the view held before; the index of the box is read
    back from them. *)
Theorem over_rows_columns (index : nat) (this : InsertTableView) :
  index < 100 →
  (1 ≤ rows (over fires index this) ≤ 10
   ∧ 1 ≤ columns (over fires index this) ≤ 10
   ∧ (rows (over fires index this) - 1) * 10
     + (columns (over fires index this) - 1) = Z.of_nat index)%Z.
Proof.
  intros Hi. rewrite over_rows, over_columns.
  pose proof (rowOf_columnOf index Hi). lia.
Qed.

(** X18.  After any sequence of hovers on a freshly constructed view,
    the grid still has its hundred boxes and the boxes that are on are
    those of the rectangle between the first box and the box hovered
    last: a box is on exactly when its row and its column are not after
    the row and the column of that box. *)
Theorem hover_highlights_rectangle (indices : list nat) (last0 : nat)
    (index : nat) :
  index < 100 →
  length (items (hover fires (indices ++ [last0]) constructor)) = 100
  ∧ isOn <$> items (hover fires (indices ++ [last0]) constructor) !! index
    = Some (bool_decide (rowOf index ≤ rowOf last0)%Z
            && bool_decide (columnOf index ≤ columnOf last0)%Z).
Proof.
  intros Hi.
  assert (length (items (hover fires (indices ++ [last0]) constructor)) = 100)
    as Hlen by (by rewrite hover_length).
  split; [exact Hlen|].
  destruct (lookup_lt_is_Some_2
              (items (hover fires (indices ++ [last0]) constructor)) index)
    as [boxView Hb]; [lia|].
  rewrite Hb. simpl. f_equal.
  rewrite (hover_highlighted (indices ++ [last0]) constructor
             constructor_highlighted index boxView Hb).
  unfold hover. rewrite fold_left_app. simpl.
  rewrite over_rows, over_columns.
  f_equal; apply bool_decide_ext; lia.
Qed.

(** The number of boxes that are on. *)
Definition countOn (this : InsertTableView) : nat :=
  length (List.filter isOn (items this)).

Lemma countOn_items this this' :
  items this = items this' → countOn this = countOn this'.
Proof. unfold countOn. by intros ->. Qed.

(** The grid as [_highlightGridBoxes] leaves it for the given numbers of
    rows and columns. *)
Definition grid (rows0 columns0 : Z) : InsertTableView :=
  _highlightGridBoxes
    {| items := items constructor; rows := rows0; columns := columns0 |}.

Lemma highlighted_grid this :
  highlighted this → length (items this) = 100 →
  items this = items (grid (rows this) (columns this)).
Proof.
  intros Hh Hlen. apply list_eq. intros index.
  unfold grid. cbn [items _highlightGridBoxes rows columns constructor].
  rewrite list_lookup_imap.
  destruct (items this !! index) as [boxView|] eqn:Hb.
  - rewrite (lookup_replicate_2 100) by (apply lookup_lt_Some in Hb; lia).
    simpl. destruct boxView as [b]. f_equal. f_equal.
    apply (Hh index _ Hb).
  - apply lookup_ge_None in Hb.
    assert (replicate 100 {| isOn := false |} !! index = None) as ->; [|done].
    apply lookup_replicate_None. lia.
Qed.

Lemma grid_countOn_check :
  forallb (λ rows0,
             forallb (λ columns0,
                        (Z.of_nat (countOn (grid rows0 columns0))
                         =? rows0 * columns0)%Z)
               (seqZ 0 11))
    (seqZ 0 11) = true.
Proof. vm_compute. reflexivity. Qed.

Lemma grid_countOn rows0 columns0 :
  (0 ≤ rows0 ≤ 10)%Z → (0 ≤ columns0 ≤ 10)%Z →
  Z.of_nat (countOn (grid rows0 columns0)) = (rows0 * columns0)%Z.
Proof.
  intros Hr Hc.
  assert (In rows0 (seqZ 0 11)) as Hin1
    by (apply list_elem_of_In, elem_of_seqZ; lia).
  assert (In columns0 (seqZ 0 11)) as Hin2
    by (apply list_elem_of_In, elem_of_seqZ; lia).
  pose proof (proj1 (forallb_forall _ _) grid_countOn_check rows0 Hin1) as H1.
  cbv beta in H1.
  pose proof (proj1 (forallb_forall _ _) H1 columns0 Hin2) as H2.
  cbv beta in H2. exact (proj1 (Z.eqb_eq _ _) H2).
Qed.

Lemma hover_rows_columns_bounds indices :
  Forall (λ index, index < 100) indices →
  (0 ≤ rows (hover fires indices constructor) ≤ 10
   ∧ 0 ≤ columns (hover fires indices constructor) ≤ 10)%Z.
Proof.
  destruct indices as [|last0 indices _] using rev_ind; [done|].
  intros [_ Hl]%Forall_app. apply Forall_cons in Hl as [Hl _].
  unfold hover. rewrite fold_left_app. simpl.
  rewrite over_rows, over_columns.
  pose proof (rowOf_columnOf last0 Hl). lia.
Qed.

(** X19.  After any sequence of hovers over boxes of the grid of a
    freshly constructed view, the number of boxes that are on is the
    product of [rows] and [columns]: the highlighted boxes are as many
    as the cells of the table that would be inserted. *)
Theorem hover_countOn (indices : list nat) :
  Forall (λ index, index < 100) indices →
  Z.of_nat (countOn (hover fires indices constructor))
  = (rows (hover fires indices constructor)
     * columns (hover fires indices constructor))%Z.
Proof.
  intros Hi.
  pose proof (hover_rows_columns_bounds indices Hi) as [Hr Hc].
  pose proof (highlighted_grid (hover fires indices constructor)
                (hover_highlighted indices constructor constructor_highlighted)
                (hover_length indices constructor)) as Hitems.
  rewrite (countOn_items _ _ Hitems). exact (grid_countOn _ _ Hr Hc).
Qed.

(** X20.  The view keeps no trace of the boxes hovered earlier: after
    any sequence of hovers on a freshly constructed view, the view is
    the one that a single hover of the last box gives. *)
Theorem hover_last (indices : list nat) (last0 : nat) :
  hover fires (indices ++ [last0]) constructor
  = hover fires [last0] constructor.
Proof.
  assert (∀ l, hover fires (l ++ [last0]) constructor
               = grid (rowOf last0 + 1) (columnOf last0 + 1)) as Hgrid.
  { intros l.
    assert (rows (hover fires (l ++ [last0]) constructor)
            = (rowOf last0 + 1)%Z) as Hr
      by (unfold hover; rewrite fold_left_app; simpl; apply over_rows).
    assert (columns (hover fires (l ++ [last0]) constructor)
            = (columnOf last0 + 1)%Z) as Hc
      by (unfold hover; rewrite fold_left_app; simpl; apply over_columns).
    apply view_eq; [|exact Hr|exact Hc].
    rewrite <- Hr, <- Hc. apply highlighted_grid.
    - apply hover_highlighted, constructor_highlighted.
    - apply hover_length. }
  rewrite (Hgrid indices). symmetry. apply (Hgrid []).
Qed.

End Properties.

(** The mixin's rule: an assignment fires the change event when the
    value differs from the one held. *)
Definition changed (old value : Z) : bool := bool_decide (old ≠ value).

Lemma changed_change old value : old ≠ value → changed old value = true.
Proof. intros Hne. by apply bool_decide_true. Defined.

(** The boxes hovered in the instances below. *)
Definition hovered : list nat := [5; 99; 37].

Lemma over_rows_columns_witness :
  (1 ≤ rows (over changed 37 constructor) ≤ 10
   ∧ 1 ≤ columns (over changed 37 constructor) ≤ 10
   ∧ (rows (over changed 37 constructor) - 1) * 10
     + (columns (over changed 37 constructor) - 1) = 37)%Z.
Proof. apply (over_rows_columns changed 37 constructor). lia. Defined.

Lemma hover_highlights_rectangle_witness :
  length (items (hover changed ([5; 99] ++ [37]) constructor)) = 100
  ∧ isOn <$> items (hover changed ([5; 99] ++ [37]) constructor) !! 26
    = Some (bool_decide (rowOf 26 ≤ rowOf 37)%Z
            && bool_decide (columnOf 26 ≤ columnOf 37)%Z).
Proof.
  apply (hover_highlights_rectangle changed changed_change [5; 99] 37 26). lia.
Defined.

Lemma hover_last_witness :
  hover changed ([5; 99] ++ [37]) constructor
  = hover changed [37] constructor.
Proof. apply (hover_last changed changed_change [5; 99] 37). Defined.

Lemma hover_countOn_witness :
  Z.of_nat (countOn (hover changed hovered constructor))
  = (rows (hover changed hovered constructor)
     * columns (hover changed hovered constructor))%Z.
Proof.
  apply (hover_countOn changed changed_change hovered).
  unfold hovered. repeat constructor; lia.
Defined.

End InsertTableView.
